(** * wcm-scanner: dependency graph and import scanning

    A shallow embedding of the scanner ([scanner.ts]), the inspector
    ([inspection.ts]), the filesystem helpers ([filesystem/filesystem.ts]) and
    the utilities ([utilities.ts]), together with the properties of the
    specification that concern them.

    JavaScript strings are sequences of code units; here they are Rocq
    strings, so a code unit is below 256. *)

From Stdlib Require Import List String Ascii Bool Arith ZArith Lia.
From Stdlib Require Import DecimalString.
Import ListNotations.
#[local] Set Warnings "-register-all".
Open Scope string_scope.
Open Scope list_scope.

(* ================================================================== *)
(** * JavaScript strings                                               *)
(* ================================================================== *)

Module JsString.

(** The double quote character, as a one-character string. *)
Definition dquote : string := String (ascii_of_nat 34) EmptyString.

(** [s.slice(n)] for [0 <= n]. *)
Fixpoint drop (n : nat) (s : string) : string :=
  match n, s with
  | O, _ => s
  | S _, EmptyString => EmptyString
  | S n', String _ s' => drop n' s'
  end.

(** [s.startsWith(p)]. *)
Fixpoint startsWith (p s : string) : bool :=
  match p, s with
  | EmptyString, _ => true
  | String _ _, EmptyString => false
  | String a p', String b s' => Ascii.eqb a b && startsWith p' s'
  end.

(** The text before and after the first occurrence of [p] in [s]
    (the position [s.indexOf(p)] is the length of the first component);
    [None] when [p] does not occur.  The empty pattern occurs at 0. *)
Fixpoint splitAtFirst (p s : string) : option (string * string) :=
  if startsWith p s then Some (EmptyString, drop (String.length p) s)
  else match s with
       | EmptyString => None
       | String c s' =>
           match splitAtFirst p s' with
           | Some (pre, post) => Some (String c pre, post)
           | None => None
           end
       end.

(** [s.includes(p)]. *)
Definition includes (p s : string) : bool :=
  match splitAtFirst p s with Some _ => true | None => false end.

(** ECMAScript [GetSubstitution] for a string pattern (no captures):
    [$$] is a dollar, [$&] the matched text, [$`] the text before the
    match, [$'] the text after it; any other character, and a dollar
    followed by anything else, stands for itself. *)
Fixpoint getSubstitution (matched pre post replacement : string) : string :=
  match replacement with
  | EmptyString => EmptyString
  | String c r' =>
      if Ascii.eqb c "$" then
        match r' with
        | String d r'' =>
            if Ascii.eqb d "$" then
              String "$" (getSubstitution matched pre post r'')
            else if Ascii.eqb d "&" then
              matched ++ getSubstitution matched pre post r''
            else if Ascii.eqb d "`" then
              pre ++ getSubstitution matched pre post r''
            else if Ascii.eqb d "'" then
              post ++ getSubstitution matched pre post r''
            else String c (getSubstitution matched pre post r')
        | EmptyString => String c EmptyString
        end
      else String c (getSubstitution matched pre post r')
  end.

(** [s.replace(pattern, replacement)] with a string pattern: only the
    first occurrence of the pattern is replaced. *)
Definition replace (s pattern replacement : string) : string :=
  match splitAtFirst pattern s with
  | None => s
  | Some (pre, post) =>
      pre ++ getSubstitution pattern pre post replacement ++ post
  end.

(** [s.split(sep)] for a one-character separator. *)
Fixpoint split (sep : ascii) (s : string) : list string :=
  match s with
  | EmptyString => [EmptyString]
  | String c s' =>
      if Ascii.eqb c sep then EmptyString :: split sep s'
      else match split sep s' with
           | seg :: rest => String c seg :: rest
           | [] => [String c EmptyString]
           end
  end.

(** [segs.join(sep)]. *)
Fixpoint join (sep : string) (segs : list string) : string :=
  match segs with
  | [] => EmptyString
  | [seg] => seg
  | seg :: rest => seg ++ sep ++ join sep rest
  end.

End JsString.

(* ================================================================== *)
(** * Regular expressions                                              *)
(* ================================================================== *)

(** The backtracking matcher of ECMAScript, for the constructs the two
    patterns of the repository use: character classes, sequence, ordered
    alternation, the greedy optional group, and the two anchors (without
    the multiline flag).  Capture groups only matter through the text of
    the whole match, which is all the callers read. *)
Module Regex.

Inductive regex : Type :=
| Class (p : ascii -> bool)
| Seq (r1 r2 : regex)
| Alt (r1 r2 : regex)
| Opt (r : regex)
| Bol
| Eol.

Definition isDigit (c : ascii) : bool :=
  let n := nat_of_ascii c in ((48 <=? n) && (n <=? 57))%nat.

(** [\w]: letters, digits and the underscore. *)
Definition isWord (c : ascii) : bool :=
  let n := nat_of_ascii c in
  (((48 <=? n) && (n <=? 57)) || ((65 <=? n) && (n <=? 90))
   || ((97 <=? n) && (n <=? 122)) || (n =? 95))%nat.

(** [.]: anything but a line terminator. *)
Definition isDot (c : ascii) : bool :=
  let n := nat_of_ascii c in negb ((n =? 10) || (n =? 13))%nat.

Definition lit (c : ascii) : regex := Class (Ascii.eqb c).
Definition digit : regex := Class isDigit.
Definition word : regex := Class isWord.
Definition dot : regex := Class isDot.

(** [run r i s k]: match [r] at index [i], where [s] is the input from
    [i] on, and hand the index and the rest of the input to the
    continuation [k]; the answer is the end index of the whole match.
    An optional group whose body matched the empty string is rejected
    (the empty check of the specification's RepeatMatcher). *)
Fixpoint run (r : regex) (i : nat) (s : string)
         (k : nat -> string -> option nat) : option nat :=
  match r with
  | Class p =>
      match s with
      | String c s' => if p c then k (S i) s' else None
      | EmptyString => None
      end
  | Seq r1 r2 => run r1 i s (fun j t => run r2 j t k)
  | Alt r1 r2 =>
      match run r1 i s k with
      | Some e => Some e
      | None => run r2 i s k
      end
  | Opt r1 =>
      match run r1 i s (fun j t => if (j =? i)%nat then None else k j t) with
      | Some e => Some e
      | None => k i s
      end
  | Bol => if (i =? 0)%nat then k i s else None
  | Eol => match s with EmptyString => k i s | String _ _ => None end
  end.

(** The most characters a match of [r] spans. *)
Fixpoint maxWidth (r : regex) : nat :=
  match r with
  | Class _ => 1
  | Seq r1 r2 => maxWidth r1 + maxWidth r2
  | Alt r1 r2 => Nat.max (maxWidth r1) (maxWidth r2)
  | Opt r1 => maxWidth r1
  | Bol => 0
  | Eol => 0
  end.

(** The end index of a match starting at index [i]. *)
Definition matchAt (r : regex) (i : nat) (s : string) : option nat :=
  run r i s (fun j _ => Some j).

(** Scan the start positions from left to right; [s] is the input from
    index [i] on.  The result is the start and end index of the match. *)
Fixpoint search (r : regex) (i : nat) (s : string) : option (nat * nat) :=
  match matchAt r i s with
  | Some e => Some (i, e)
  | None =>
      match s with
      | EmptyString => None
      | String _ s' => search r (S i) s'
      end
  end.

(** [regex.exec(s)[0]] for a regex without the global flag: the text of
    the leftmost match, [None] for [null]. *)
Definition exec (r : regex) (s : string) : option string :=
  match search r 0 s with
  | Some (b, e) => Some (String.substring b (e - b) s)
  | None => None
  end.

(** [regex.test(s)]. *)
Definition test (r : regex) (s : string) : bool :=
  match search r 0 s with Some _ => true | None => false end.

End Regex.

(* ================================================================== *)
(** * JavaScript values                                                *)
(* ================================================================== *)

(** What [JSON.parse] produces, and [undefined].  Numbers are never
    inspected by the scanner; integers stand for them. *)
Inductive JsValue : Type :=
| JsUndefined
| JsNull
| JsBool (b : bool)
| JsNumber (n : Z)
| JsString (s : string)
| JsArray (items : list JsValue)
| JsObject (fields : list (string * JsValue)).

(** [IKeyValue<T>] of [utilities.ts]: an object as its own enumerable
    properties in enumeration order. *)
Definition IKeyValue (T : Type) : Type := list (string * T).

Fixpoint lookup {T : Type} (k : string) (o : IKeyValue T) : option T :=
  match o with
  | [] => None
  | (k', v) :: o' => if String.eqb k' k then Some v else lookup k o'
  end.

(** Exceptions. [Error] is the constructor the repository throws with;
    [TypeError] is raised by the language, [SystemError] by the file
    system (with its code, such as ENOENT, and the path). *)
Inductive JsError : Type :=
| Error (message : string)
| TypeError (message : string)
| SystemError (code path : string).

(** How a call completes: normally, or abruptly by a throw (a rejected
    promise, for asynchronous code). *)
Inductive Outcome (A : Type) : Type :=
| Returned (a : A)
| Raised (e : JsError).
Arguments Returned {A} a.
Arguments Raised {A} e.

(* ================================================================== *)
(** * Ramda                                                            *)
(* ================================================================== *)

(** The functions of Ramda the repository imports, as Ramda 0.2x
    implements them. *)
Module R.

Definition keys {T : Type} (obj : IKeyValue T) : list string :=
  map fst obj.

(** [R.head]: [undefined] on the empty list. *)
Definition head {A : Type} (l : list A) : option A := hd_error l.

(** A property key from a value that may be [undefined]. *)
Definition toPropertyKey (k : option string) : string :=
  match k with Some s => s | None => "undefined" end.

(** [R.prop(p, obj)] is [obj[p]]. *)
Definition prop (p : option string) (obj : IKeyValue JsValue) : JsValue :=
  match lookup (toPropertyKey p) obj with
  | Some v => v
  | None => JsUndefined
  end.

Definition containsString (x : string) (l : list string) : bool :=
  existsb (String.eqb x) l.

Fixpoint uniq (l : list string) : list string :=
  match l with
  | [] => []
  | x :: l' => x :: filter (fun y => negb (String.eqb x y)) (uniq l')
  end.

(** [R.intersection]: the shorter list is filtered by membership in the
    longer one (the first list when they are equally long), then
    duplicates are dropped. *)
Definition intersection (list1 list2 : list string) : list string :=
  let (lookupList, filteredList) :=
    if (List.length list2 <? List.length list1)%nat
    then (list1, list2) else (list2, list1) in
  uniq (filter (fun x => containsString x lookupList) filteredList).

(** [R.equals] on JSON values: structural, objects compared whatever
    the order of their keys. *)
Fixpoint equals (a b : JsValue) {struct a} : bool :=
  match a, b with
  | JsUndefined, JsUndefined => true
  | JsNull, JsNull => true
  | JsBool x, JsBool y => Bool.eqb x y
  | JsNumber x, JsNumber y => Z.eqb x y
  | JsString x, JsString y => String.eqb x y
  | JsArray xs, JsArray ys =>
      (fix all2 (xs ys : list JsValue) {struct xs} : bool :=
         match xs, ys with
         | [], [] => true
         | x :: xs', y :: ys' => equals x y && all2 xs' ys'
         | _, _ => false
         end) xs ys
  | JsObject fx, JsObject fy =>
      (List.length fx =? List.length fy)%nat
      && (fix every (fs : list (string * JsValue)) {struct fs} : bool :=
            match fs with
            | [] => true
            | (k, v) :: fs' =>
                match lookup k fy with
                | Some w => equals v w
                | None => false
                end && every fs'
            end) fx
  | _, _ => false
  end.

(** [R.contains(a, list)]. *)
Definition contains (a : JsValue) (l : list JsValue) : bool :=
  existsb (equals a) l.

Definition indexKey (i : nat) : string :=
  NilZero.string_of_uint (Nat.to_uint i).

Fixpoint indexed {A : Type} (i : nat) (l : list A) : list (string * A) :=
  match l with
  | [] => []
  | x :: l' => (indexKey i, x) :: indexed (S i) l'
  end.

Fixpoint chars (s : string) : list JsValue :=
  match s with
  | EmptyString => []
  | String c s' => JsString (String c EmptyString) :: chars s'
  end.

(** The own enumerable properties of a value, in enumeration order
    (what [for (prop in obj)] visits and [_has] keeps): the fields of
    an object, the indices of an array or of a string, nothing for the
    rest. *)
Definition ownProperties (v : JsValue) : IKeyValue JsValue :=
  match v with
  | JsObject fields => fields
  | JsArray items => indexed 0 items
  | JsString s => indexed 0 (chars s)
  | _ => []
  end.

(** [R.toPairs]: the own enumerable properties as key and value pairs. *)
Definition toPairs {T : Type} (obj : IKeyValue T) : list (string * T) := obj.

(** An array index as a property key: the canonical decimal text of an
    integer from 0 to 2^32 - 2. *)
Fixpoint digitsValue (acc : N) (s : string) : option N :=
  match s with
  | EmptyString => Some acc
  | String c s' =>
      let n := nat_of_ascii c in
      if ((48 <=? n) && (n <=? 57))%nat
      then digitsValue (acc * 10 + N.of_nat (n - 48)) s'
      else None
  end.

Definition arrayIndex (k : string) : option N :=
  match k with
  | EmptyString => None
  | String c rest =>
      if Ascii.eqb c "0" && negb (String.eqb rest "") then None
      else match digitsValue 0 k with
           | Some n => if (n <=? 4294967294)%N then Some n else None
           | None => None
           end
  end.

Fixpoint hasKey {T : Type} (k : string) (obj : IKeyValue T) : bool :=
  match obj with
  | [] => false
  | (k', _) :: obj' => String.eqb k' k || hasKey k obj'
  end.

Fixpoint setValue {T : Type} (k : string) (v : T) (obj : IKeyValue T)
  : IKeyValue T :=
  match obj with
  | [] => []
  | (k', v') :: obj' =>
      if String.eqb k' k then (k', v) :: obj' else (k', v') :: setValue k v obj'
  end.

(** A new array index goes after the smaller array indices. *)
Fixpoint insertIndex {T : Type} (n : N) (k : string) (v : T)
         (obj : IKeyValue T) : IKeyValue T :=
  match obj with
  | [] => [(k, v)]
  | (k', v') :: obj' =>
      match arrayIndex k' with
      | Some m =>
          if (m <? n)%N then (k', v') :: insertIndex n k v obj'
          else (k, v) :: obj
      | None => (k, v) :: obj
      end
  end.

(** [obj[k] = v] on an object created by a literal: the value of an own
    property is replaced where the property stands; a new property is
    enumerated after the others, except that the array indices come
    first, in ascending order.  The key [__proto__] reaches the setter
    of the prototype and gives the object no own property. *)
Definition assign {T : Type} (k : string) (v : T) (obj : IKeyValue T)
  : IKeyValue T :=
  if String.eqb k "__proto__" then obj
  else if hasKey k obj then setValue k v obj
  else match arrayIndex k with
       | Some n => insertIndex n k v obj
       | None => (obj ++ [(k, v)])%list
       end.

(** [R.zipObj(keys, values)]: [out[keys[idx]] = values[idx]] for every
    index below the shorter length. *)
Definition zipObj {T : Type} (keys : list string) (values : list T)
  : IKeyValue T :=
  fold_left (fun out '(k, v) => assign k v out) (combine keys values) [].

(** [R.unnest]. *)
Definition unnest {A : Type} (l : list (list A)) : list A := List.concat l.

End R.

(* ================================================================== *)
(** * utilities.ts                                                     *)
(* ================================================================== *)

Module Utilities.

(** [firstDefinedProperty(props)(obj)]:
    [prop(compose(head, curry(intersection)(props), keys)(obj), obj)]. *)
Definition firstDefinedProperty (props : list string)
           (obj : IKeyValue JsValue) : JsValue :=
  R.prop (R.head (R.intersection props (R.keys obj))) obj.

(** [toObjectBy(method)(arr)]:
    [converge(zipObj, [map(identity), map(method)])(arr)]. *)
Definition toObjectBy {U : Type} (method : string -> U) (arr : list string)
  : IKeyValue U :=
  R.zipObj (map (fun x => x) arr) (map method arr).

(** The pattern of [pruneVersionString]: an alternation of a group
    holding the escaped asterisk and of
    [(\^|~|<|>|(<|>)=)?((\d.)?(\d.)?)?\d$]. *)
Definition versionPattern : Regex.regex :=
  let rangeOperator :=
    Regex.Alt (Regex.lit "^")
      (Regex.Alt (Regex.lit "~")
         (Regex.Alt (Regex.lit "<")
            (Regex.Alt (Regex.lit ">")
               (Regex.Seq (Regex.Alt (Regex.lit "<") (Regex.lit ">"))
                          (Regex.lit "="))))) in
  let component := Regex.Seq Regex.digit Regex.dot in
  Regex.Alt
    (Regex.lit "*")
    (Regex.Seq (Regex.Opt rangeOperator)
       (Regex.Seq
          (Regex.Opt (Regex.Seq (Regex.Opt component) (Regex.Opt component)))
          (Regex.Seq Regex.digit Regex.Eol))).

(** [pruneVersionString(version)]: element 0 of the result of [exec];
    reading it from [null] is a [TypeError]. *)
Definition pruneVersionString (version : string) : Outcome string :=
  match Regex.exec versionPattern version with
  | Some whole => Returned whole
  | None => Raised (TypeError "Cannot read property '0' of null")
  end.

End Utilities.

(* ================================================================== *)
(** * Node's path module (POSIX)                                       *)
(* ================================================================== *)

Module Path.

Definition sep : ascii := "/"%char.

Definition isAbsolute (p : string) : bool :=
  match p with
  | String c _ => Ascii.eqb c sep
  | EmptyString => false
  end.

(** One segment of [normalizeString]; the segments kept so far are a
    stack, the last one on top.  Empty segments and [.] are dropped;
    [..] removes the segment before it, and is kept only above the start
    of a relative path. *)
Definition normalizeSegment (allowAboveRoot : bool)
           (stack : list string) (seg : string) : list string :=
  if String.eqb seg "" then stack
  else if String.eqb seg "." then stack
  else if String.eqb seg ".." then
    match stack with
    | top :: below =>
        if String.eqb top ".." then seg :: stack else below
    | [] => if allowAboveRoot then [seg] else []
    end
  else seg :: stack.

Definition normalizeString (path : string) (allowAboveRoot : bool) : string :=
  JsString.join "/"
    (rev (fold_left (normalizeSegment allowAboveRoot)
                    (JsString.split sep path) [])).

(** The loop of [resolve], from the last path to the first and then the
    working directory, until an absolute path has been prepended. *)
Fixpoint resolveLoop (paths : list string) (resolvedPath : string)
  : string * bool :=
  match paths with
  | [] => (resolvedPath, false)
  | path :: rest =>
      if String.eqb path "" then resolveLoop rest resolvedPath
      else if isAbsolute path then ((path ++ "/" ++ resolvedPath)%string, true)
      else resolveLoop rest (path ++ "/" ++ resolvedPath)
  end.

(** [path.resolve(...paths)] in the working directory [cwd]. *)
Definition resolve (cwd : string) (paths : list string) : string :=
  let (resolvedPath, resolvedAbsolute) :=
    resolveLoop (rev paths ++ [cwd]) "" in
  let normalized := normalizeString resolvedPath (negb resolvedAbsolute) in
  if resolvedAbsolute then "/" ++ normalized
  else if String.eqb normalized "" then "." else normalized.

End Path.

(* ================================================================== *)
(** * Collaborators and effects                                        *)
(* ================================================================== *)

(** Cheerio: a loaded document is its elements in document order, each
    with its tag name and its attributes. *)
Module Cheerio.

Record Element : Type := { name : string; attribs : IKeyValue string }.

Definition Document : Type := list Element.

(** [$(tagName).toArray()] for a key that is a tag name as the parser
    writes it: the elements of that name, in document order.  Cheerio
    reads the key as a selector; other selectors are not modelled. *)
Definition select (tagName : string) (doc : Document) : list Element :=
  filter (fun e => String.eqb (name e) tagName) doc.

End Cheerio.

(** The calls to the outside, as they are issued. *)
Inductive Event : Type :=
| ExistsSyncCall (path : string)
| ReadFileCall (path : string)
| ReaddirCall (path : string)
| StatSyncCall (path : string)
| ReadJsonCall (path : string)
| CheerioLoadCall (markup : string).

(** The environment of a run: the working directory, the file system as
    the answers of [fs-promise], and Cheerio's parser. *)
Record World : Type := {
  cwd : string;
  existsSync : string -> bool;
  readFile : string -> Outcome string;
  readdir : string -> Outcome (list string);
  statIsDirectory : string -> Outcome bool;
  readJson : string -> Outcome (IKeyValue JsValue);
  cheerioLoad : string -> Cheerio.Document
}.

(** A computation: it extends the trace of calls issued so far and
    completes normally or abruptly. *)
Definition IO (A : Type) : Type := list Event -> Outcome A * list Event.

Definition ret {A : Type} (a : A) : IO A := fun tr => (Returned a, tr).

Definition raise {A : Type} (e : JsError) : IO A := fun tr => (Raised e, tr).

Definition bind {A B : Type} (c : IO A) (k : A -> IO B) : IO B :=
  fun tr =>
    match c tr with
    | (Returned a, tr') => k a tr'
    | (Raised e, tr') => (Raised e, tr')
    end.

Notation "'let*' x ':=' c 'in' k" := (bind c (fun x => k))
  (at level 10, x pattern, c at level 100, k at level 200).

(** A call to a collaborator: the event, then the answer. *)
Definition call {A : Type} (ev : Event) (answer : Outcome A) : IO A :=
  fun tr => (answer, (tr ++ [ev])%list).

(** What a synchronous expression that may throw contributes. *)
Definition lift {A : Type} (o : Outcome A) : IO A := fun tr => (o, tr).

(** A call that returns a promise or throws, awaited inside an
    asynchronous function, or made the body of a function declared
    [async]: the throw rejects the promise. *)
Definition async {A : Type} (o : Outcome (IO A)) : IO A :=
  match o with
  | Returned promise => promise
  | Raised e => raise e
  end.

(** [Promise.all] over calls already issued, in the order of the list:
    every computation has run, and one failure is the failure of the
    whole.  Which failure is reported when several reads fail depends on
    the order in which they settle; here it is the first of the list. *)
Fixpoint promiseAll {A : Type} (cs : list (IO A)) : IO (list A) :=
  fun tr =>
    match cs with
    | [] => (Returned [], tr)
    | c :: cs' =>
        let (o, tr1) := c tr in
        let (os, tr2) := promiseAll cs' tr1 in
        (match o, os with
         | Raised e, _ => Raised e
         | Returned _, Raised e => Raised e
         | Returned a, Returned l => Returned (a :: l)
         end, tr2)
    end.

(** A filter whose predicate calls out. *)
Fixpoint filterIO {A : Type} (p : A -> IO bool) (l : list A) : IO (list A) :=
  match l with
  | [] => ret []
  | x :: l' =>
      let* keep := p x in
      let* rest := filterIO p l' in
      ret (if keep then x :: rest else rest)
  end.

(** The run of a computation from the empty trace. *)
Definition run {A : Type} (c : IO A) : Outcome A * list Event := c [].

(* ================================================================== *)
(** * filesystem/filesystem.ts                                         *)
(* ================================================================== *)

Module Filesystem.

(** [DependencyJson]: a parsed manifest. *)
Definition DependencyJson : Type := IKeyValue JsValue.

Definition DependencyReader : Type := string -> IO DependencyJson.

(** [IProjectOptions] ([IDependencyOptions] in the earlier revision).
    The package manager is whatever value the caller supplied. *)
Record IProjectOptions : Type := {
  projectPath : string;
  packageManager : JsValue
}.

(** A [case "..."] label of a [switch]: strict equality with a string. *)
Definition isCase (label : string) (v : JsValue) : bool :=
  match v with
  | JsString s => String.eqb s label
  | _ => false
  end.

Section WithWorld.

Variable w : World.

Definition resolve (paths : list string) : string :=
  Path.resolve (cwd w) paths.

Definition readBowerJson (projectPath : string) : IO DependencyJson :=
  let path := resolve [projectPath; ".bower.json"] in
  call (ReadJsonCall path) (readJson w path).

Definition readPackageJson (projectPath : string) : IO DependencyJson :=
  let path := resolve [projectPath; "package.json"] in
  call (ReadJsonCall path) (readJson w path).

Definition readDependencyBowerJson (projectPath : string)
  : DependencyReader :=
  fun dependencyName =>
    readBowerJson (resolve [projectPath; "bower_components"; dependencyName]).

Definition readDependencyPackageJson (projectPath : string)
  : DependencyReader :=
  fun dependencyName =>
    readPackageJson (resolve [projectPath; "node_modules"; dependencyName]).

(** [readDependenciesJson(opts)]: the reader, or the throw of the
    default case. *)
Definition readDependenciesJson (opts : IProjectOptions)
  : Outcome DependencyReader :=
  if isCase "bower" (packageManager opts) then
    Returned (readDependencyBowerJson (projectPath opts))
  else if isCase "npm" (packageManager opts) then
    Returned (readDependencyPackageJson (projectPath opts))
  else Raised (Error "A 'packageManager' must be supplied").

(** [listDirectoryContents] ([listDirectoryChildren] in the earlier
    revision): the children of the directory as resolved paths. *)
Definition listDirectoryContents (directoryPath : string)
  : IO (list string) :=
  let* children := call (ReaddirCall directoryPath)
                        (readdir w directoryPath) in
  ret (map (fun child => resolve [directoryPath; child]) children).

Definition extractFoldersSync (paths : list string) : IO (list string) :=
  filterIO (fun item => call (StatSyncCall item) (statIsDirectory w item))
           paths.

(** [paths.map(pipe(split(sep), last))]; [split] never returns the
    empty array, so [last] is defined. *)
Definition extractPathEndingsSync (paths : list string) : list string :=
  map (fun path => List.last (JsString.split Path.sep path) "") paths.

(** [filter(test(/^\w/), filenames)]. *)
Definition filterDotFiles (filenames : list string) : list string :=
  filter (Regex.test (Regex.Seq Regex.Bol Regex.word)) filenames.

Definition extractFolderNamesSync (paths : list string)
  : IO (list string) :=
  let* folders := extractFoldersSync paths in
  ret (filterDotFiles (extractPathEndingsSync folders)).

(** [listInstalledDependencies(opts)]: the promise of the names, or the
    throw of the default case.  The earlier revision declares the
    function [async]; there the throw rejects the promise returned, which
    is [async] of this definition. *)
Definition listInstalledDependencies (opts : IProjectOptions)
  : Outcome (IO (list string)) :=
  if isCase "bower" (packageManager opts) then
    Returned
      (let* paths :=
         listDirectoryContents (resolve [projectPath opts; "bower_components"]) in
       extractFolderNamesSync paths)
  else if isCase "npm" (packageManager opts) then
    Returned
      (let* paths :=
         listDirectoryContents (resolve [projectPath opts; "node_modules"]) in
       extractFolderNamesSync paths)
  else Raised (Error "A 'packageManager' must be supplied").

End WithWorld.

End Filesystem.

(* ================================================================== *)
(** * inspection/inspection.ts                                         *)
(* ================================================================== *)

Module Inspection.

Record IInspectionOptions : Type := {
  entryPath : string;
  sourceRoot : string;
  importResolutions : IKeyValue string;
  importTags : IKeyValue string
}.

Record IImportDetails : Type := {
  tagName : string;
  attributeName : string
}.

Record IImportDeclaration : Type := {
  importPath : string;
  importDetails : IImportDetails
}.

Record IFileMetadata : Type := {
  filePath : string;
  importDeclarations : list IImportDeclaration
}.

(** The loop over [toPairs(opts.importResolutions)]:
    [attributeValue = attributeValue.replace(pathPlaceholder, replacingValue)]. *)
Definition applyResolutions (resolutions : IKeyValue string)
           (attributeValue : string) : string :=
  fold_left
    (fun value '(pathPlaceholder, replacingValue) =>
       JsString.replace value pathPlaceholder replacingValue)
    (R.toPairs resolutions) attributeValue.

Section WithWorld.

Variable w : World.

Definition readFileAtPath (filePath : string) : IO string :=
  let* found := call (ExistsSyncCall filePath)
                     (Returned (existsSync w filePath)) in
  if negb found then
    raise (Error ("File not found at path " ++ JsString.dquote
                    ++ filePath ++ JsString.dquote))
  else call (ReadFileCall filePath) (readFile w filePath).

(** The body of the loop over the selected elements: the declarations
    pushed so far, then the one of [link] when its attribute is set to
    a non-empty value.  The attribute is read among the attributes of
    the element; the names an object inherits, such as [constructor],
    are not attribute names the model covers. *)
Definition inspectElement (opts : IInspectionOptions)
           (tagName attributeName : string)
           (declarations : list IImportDeclaration)
           (link : Cheerio.Element) : list IImportDeclaration :=
  match lookup attributeName (Cheerio.attribs link) with
  | Some attributeValue =>
      if String.eqb attributeValue "" then declarations
      else
        (declarations ++
           [ {| importPath :=
                  Path.resolve (cwd w)
                    [sourceRoot opts;
                     applyResolutions (importResolutions opts) attributeValue];
                importDetails :=
                  {| tagName := tagName; attributeName := attributeName |} |} ])%list
  | None => declarations
  end.

Definition inspectDocument (opts : IInspectionOptions)
           (doc : Cheerio.Document) : list IImportDeclaration :=
  fold_left
    (fun declarations '(tagName, attributeName) =>
       fold_left (inspectElement opts tagName attributeName)
                 (Cheerio.select tagName doc) declarations)
    (R.toPairs (importTags opts)) [].

Definition getMetadataForFile (opts : IInspectionOptions)
           (filePath : string) : IO IFileMetadata :=
  let* contents := readFileAtPath filePath in
  let* doc := call (CheerioLoadCall contents)
                   (Returned (cheerioLoad w contents)) in
  ret {| filePath := filePath;
         importDeclarations := inspectDocument opts doc |}.

(** The generator: the pending analyses it yields, here the one of
    the entry file. *)
Definition inspectSourceFiles (opts : IInspectionOptions)
  : list (IO IFileMetadata) :=
  [ getMetadataForFile opts
      (Path.resolve (cwd w) [sourceRoot opts; entryPath opts]) ].

End WithWorld.

End Inspection.

(* ================================================================== *)
(** * The dependency graph of @ctek/wcm-graph                          *)
(* ================================================================== *)

Module Graph.

(** [IDependencyMetadata]: the identity of a dependency. *)
Record IDependencyMetadata : Type := {
  name : JsValue;
  version : JsValue
}.

(** The methods of [DependencyGraph] the scanner calls.  The graph is
    an object the scanner mutates; here every method that mutates it
    returns the graph after the call. *)
Class DependencyGraphAPI (G NodeName : Type) : Type := {
  newGraph : G;
  addRealDependency :
    G -> IDependencyMetadata -> Filesystem.DependencyJson -> G;
  addImpliedDependency : G -> IDependencyMetadata -> G;
  getDependencyAliases : G -> string -> list JsValue;
  listDependencies : G -> list NodeName;
  getDependencyData : G -> NodeName -> Filesystem.DependencyJson;
  createInterDependency : G -> NodeName -> IDependencyMetadata -> G
}.

(** A node is real, and owns its manifest, or implied. *)
Inductive NodeKind : Type :=
| Real (manifest : Filesystem.DependencyJson)
| Implied.

Record Node : Type := {
  identity : IDependencyMetadata;
  kind : NodeKind
}.

(** Modelled from the spec: the class [DependencyGraph] is the package
    @ctek/wcm-graph, which is not among the sources.  The identity
    (name, version) is the key of a node and two identities are equal
    when both fields match exactly; a node is real or implied; adding
    an identity that is already a node does not duplicate it; the alias
    set of a name is the versions registered as real nodes under it; an
    implied node has no manifest and so no declared dependencies; an
    edge goes from a node to an identity.  Nodes and edges are kept in
    the order of their creation. *)
Record DependencyGraph : Type := {
  nodes : list Node;
  edges : list (IDependencyMetadata * IDependencyMetadata)
}.

Definition sameIdentity (a b : IDependencyMetadata) : bool :=
  R.equals (name a) (name b) && R.equals (version a) (version b).

Definition hasNode (g : DependencyGraph) (id : IDependencyMetadata) : bool :=
  existsb (fun n => sameIdentity (identity n) id) (nodes g).

Definition addNode (g : DependencyGraph) (n : Node) : DependencyGraph :=
  if hasNode g (identity n) then g
  else {| nodes := (nodes g ++ [n])%list; edges := edges g |}.

Definition isReal (n : Node) : bool :=
  match kind n with Real _ => true | Implied => false end.

Definition isImplied (n : Node) : bool :=
  match kind n with Real _ => false | Implied => true end.

Definition aliasesOf (g : DependencyGraph) (dependencyName : string)
  : list JsValue :=
  map (fun n => version (identity n))
      (filter (fun n => isReal n
                        && R.equals (name (identity n)) (JsString dependencyName))
              (nodes g)).

Definition dataOf (g : DependencyGraph) (id : IDependencyMetadata)
  : Filesystem.DependencyJson :=
  match find (fun n => sameIdentity (identity n) id) (nodes g) with
  | Some {| kind := Real manifest |} => manifest
  | _ => []
  end.

#[global] Instance SpecGraph
  : DependencyGraphAPI DependencyGraph IDependencyMetadata := {
  newGraph := {| nodes := []; edges := [] |};
  addRealDependency g id manifest :=
    addNode g {| identity := id; kind := Real manifest |};
  addImpliedDependency g id :=
    addNode g {| identity := id; kind := Implied |};
  getDependencyAliases := aliasesOf;
  listDependencies g := map identity (nodes g);
  getDependencyData := dataOf;
  createInterDependency g from to :=
    {| nodes := nodes g; edges := (edges g ++ [(from, to)])%list |}
}.

End Graph.

(* ================================================================== *)
(** * scanner.ts                                                       *)
(* ================================================================== *)

Module Scanner.

Import Graph.

(** [getDependencyMetadata(dependencyJson)]. *)
Definition getDependencyMetadata (dependencyJson : Filesystem.DependencyJson)
  : IDependencyMetadata :=
  {| name := R.prop (Some "name") dependencyJson;
     version :=
       Utilities.firstDefinedProperty ["version"; "_release"] dependencyJson |}.

(** [getDependencyPairs(dependencyJson)]:
    [toPairs(prop("dependencies", dependencyJson))]. *)
Definition getDependencyPairs (dependencyJson : Filesystem.DependencyJson)
  : list (string * JsValue) :=
  R.toPairs (R.ownProperties (R.prop (Some "dependencies") dependencyJson)).

Section WithGraph.

Context {G NodeName : Type} `{DependencyGraphAPI G NodeName}.

(** [getAllDependencyPairs(dependencyGraph)]. *)
Definition getAllDependencyPairs (dependencyGraph : G)
  : list (string * JsValue) :=
  R.unnest
    (map (fun dependencyName =>
            getDependencyPairs
              (getDependencyData dependencyGraph dependencyName))
         (listDependencies dependencyGraph)).

(** The body of the loop of [registerImpliedDependencies]. *)
Definition registerImplied (dependencyGraph : G)
           (pair : string * JsValue) : G :=
  let (name, version) := pair in
  if negb (R.contains version (getDependencyAliases dependencyGraph name))
  then addImpliedDependency dependencyGraph
         {| name := JsString name; version := version |}
  else dependencyGraph.

(** [registerImpliedDependencies(dependencyGraph)]: the pairs are
    computed once, before the loop. *)
Definition registerImpliedDependencies (dependencyGraph : G) : G :=
  fold_left registerImplied
            (getAllDependencyPairs dependencyGraph) dependencyGraph.

(** The loop of [registerDeclaredDependencies], over the manifests read. *)
Definition registerManifests (dependencyGraph : G)
           (manifests : list Filesystem.DependencyJson) : G :=
  fold_left
    (fun g dependencyJson =>
       addRealDependency g (getDependencyMetadata dependencyJson)
                         dependencyJson)
    manifests dependencyGraph.

(** The loops of [generateDependencyGraph] that link the nodes. *)
Definition linkDependencies (dependencyGraph : G) : G :=
  fold_left
    (fun g dependencyName =>
       let dependencyData := getDependencyData g dependencyName in
       fold_left
         (fun g' '(name, version) =>
            createInterDependency g' dependencyName
              {| name := JsString name; version := version |})
         (getDependencyPairs dependencyData) g)
    (listDependencies dependencyGraph) dependencyGraph.

Section WithWorld.

Variable w : World.

(** [readInstalledDependenciesJson(opts)]: the list is awaited
    first, then the reader is obtained and applied to every name,
    and the reads are awaited together. *)
Definition readInstalledDependenciesJson
           (opts : Filesystem.IProjectOptions)
  : IO (list Filesystem.DependencyJson) :=
  let* installed := async (Filesystem.listInstalledDependencies w opts) in
  let* reader := lift (Filesystem.readDependenciesJson w opts) in
  promiseAll (map reader installed).

(** [registerDeclaredDependencies(dependencyGraph, opts)]. *)
Definition registerDeclaredDependencies (dependencyGraph : G)
           (opts : Filesystem.IProjectOptions) : IO G :=
  let* manifests := readInstalledDependenciesJson opts in
  ret (registerManifests dependencyGraph manifests).

(** [generateDependencyGraph(opts)]
    ([generateDeclaredDependenciesGraph] in the earlier revision). *)
Definition generateDependencyGraph (opts : Filesystem.IProjectOptions)
  : IO G :=
  let* declared := registerDeclaredDependencies newGraph opts in
  ret (linkDependencies (registerImpliedDependencies declared)).

End WithWorld.

End WithGraph.

Section WithImportGraph.

(** [ImportGraph] of @ctek/wcm-graph: the scanner only creates one. *)
Context {ImportGraph : Type} (newImportGraph : ImportGraph).

Variable w : World.

(** The loop of [registerSourceFiles]: each analysis is awaited in turn
    and [console.log(JSON.stringify(fileMetadata, null, 4))] writes its
    metadata.  The console is not one of the collaborators of [World]:
    the values written so far are carried along, each standing for its
    JSON text. *)
Fixpoint awaitAndLog (inspections : list (IO Inspection.IFileMetadata))
         (console : list Inspection.IFileMetadata)
  : IO (list Inspection.IFileMetadata) :=
  match inspections with
  | [] => ret console
  | inspection :: rest =>
      let* fileMetadata := inspection in
      awaitAndLog rest (console ++ [fileMetadata])%list
  end.

(** [registerSourceFiles(importGraph, opts)]; the result is what the
    console holds at the end. *)
Definition registerSourceFiles (importGraph : ImportGraph)
           (opts : Inspection.IInspectionOptions)
  : IO (list Inspection.IFileMetadata) :=
  awaitAndLog (Inspection.inspectSourceFiles w opts) [].

(** [generateImportGraph(opts)]: the graph returned, beside the
    console. *)
Definition generateImportGraph (opts : Inspection.IInspectionOptions)
  : IO (ImportGraph * list Inspection.IFileMetadata) :=
  let importGraph := newImportGraph in
  let* console := registerSourceFiles importGraph opts in
  ret (importGraph, console).

End WithImportGraph.

End Scanner.

(* ================================================================== *)
(** * Vocabulary of the specification                                  *)
(* ================================================================== *)

(** A name begins with a word character. *)
Definition beginsWithWordCharacter (s : string) : bool :=
  match s with
  | String c _ => Regex.isWord c
  | EmptyString => false
  end.

(** What [readdir] returns: names of directory entries.  Such a name is
    not empty, is neither [.] nor [..], and holds no separator. *)
Fixpoint noSeparator (s : string) : bool :=
  match s with
  | EmptyString => true
  | String c s' => negb (Ascii.eqb c Path.sep) && noSeparator s'
  end.

Definition entryName (s : string) : bool :=
  negb (String.eqb s "") && negb (String.eqb s ".")
  && negb (String.eqb s "..") && noSeparator s.

(** The nodes of a graph registered under an identity. *)
Definition nodesAt (g : Graph.DependencyGraph)
           (id : Graph.IDependencyMetadata) : list Graph.Node :=
  filter (fun n => Graph.sameIdentity (Graph.identity n) id) (Graph.nodes g).

(** No node of the list has the identity of a node before it. *)
Fixpoint distinctIdentities (l : list Graph.Node) : Prop :=
  match l with
  | [] => True
  | n :: l' =>
      (forall n', In n' l' ->
         Graph.sameIdentity (Graph.identity n) (Graph.identity n') = false)
      /\ distinctIdentities l'
  end.

(** The manifest read for a dependency: [.bower.json] under
    [bower_components] for Bower, [package.json] under [node_modules]
    otherwise. *)
Definition manifestPath (w : World) (opts : Filesystem.IProjectOptions)
           (dependencyName : string) : string :=
  if Filesystem.isCase "bower" (Filesystem.packageManager opts) then
    Filesystem.resolve w
      [Filesystem.resolve w
         [Filesystem.projectPath opts; "bower_components"; dependencyName];
       ".bower.json"]
  else
    Filesystem.resolve w
      [Filesystem.resolve w
         [Filesystem.projectPath opts; "node_modules"; dependencyName];
       "package.json"].

(** The declaration of an element for an entry (tag, attribute) of the
    import tags: none when the attribute is missing or empty. *)
Definition declarationsOfElement (w : World)
           (opts : Inspection.IInspectionOptions)
           (tagName attributeName : string) (link : Cheerio.Element)
  : list Inspection.IImportDeclaration :=
  match lookup attributeName (Cheerio.attribs link) with
  | None => []
  | Some attributeValue =>
      if String.eqb attributeValue "" then []
      else [ {| Inspection.importPath :=
                  Path.resolve (cwd w)
                    [Inspection.sourceRoot opts;
                     Inspection.applyResolutions
                       (Inspection.importResolutions opts) attributeValue];
                Inspection.importDetails :=
                  {| Inspection.tagName := tagName;
                     Inspection.attributeName := attributeName |} |} ]
  end.

(** The segments [resolve] keeps, for paths resolved to an absolute
    path. *)
Definition resolvedSegments (workingDirectory : string) (paths : list string)
  : list string :=
  rev (fold_left (Path.normalizeSegment false)
                 (JsString.split Path.sep
                    (fst (Path.resolveLoop (rev paths ++ [workingDirectory]) "")))
                 []).

(** The folder of the dependencies and the name of a manifest, for each
    package manager. *)
Definition conventionOf (opts : Filesystem.IProjectOptions)
           (folder manifestName : string) : Prop :=
  (Filesystem.packageManager opts = JsString "bower"
   /\ folder = "bower_components" /\ manifestName = ".bower.json")
  \/ (Filesystem.packageManager opts = JsString "npm"
      /\ folder = "node_modules" /\ manifestName = "package.json").

(** The names every object inherits from [Object.prototype]. *)
Definition inheritedProperty (s : string) : bool :=
  existsb (String.eqb s)
    ["constructor"; "hasOwnProperty"; "isPrototypeOf"; "propertyIsEnumerable";
     "toLocaleString"; "toString"; "valueOf"; "__defineGetter__";
     "__defineSetter__"; "__lookupGetter__"; "__lookupSetter__"; "__proto__"].

(** A tag name as the parser writes it, which as a selector selects the
    elements of that name: a lower-case letter, then lower-case letters,
    digits and hyphens. *)
Definition isLowerCase (c : ascii) : bool :=
  let n := nat_of_ascii c in ((97 <=? n) && (n <=? 122))%nat.

Fixpoint tagNameTail (s : string) : bool :=
  match s with
  | EmptyString => true
  | String c s' =>
      (isLowerCase c || Regex.isDigit c || Ascii.eqb c "-") && tagNameTail s'
  end.

Definition plainTagName (s : string) : bool :=
  match s with
  | EmptyString => false
  | String c s' => isLowerCase c && tagNameTail s'
  end.

(** Import tags whose keys are such tag names and whose attribute names
    are not inherited names: for them the selection by name and the
    reading of own attributes are what the inspector does. *)
Definition plainImportTags (tags : IKeyValue string) : Prop :=
  forall tagName attributeName,
    In (tagName, attributeName) tags ->
    plainTagName tagName = true /\ inheritedProperty attributeName = false.

(** A text holds an asterisk; a text ends with a digit. *)
Definition hasAsterisk (v : string) : Prop :=
  exists front rest, v = (front ++ "*" ++ rest)%string.

Definition endsWithDigit (v : string) : Prop :=
  exists front c,
    v = (front ++ String c EmptyString)%string /\ Regex.isDigit c = true.

(** The identity of a name and a version that are strings. *)
Definition identityOf (name version : string) : Graph.IDependencyMetadata :=
  {| Graph.name := JsString name; Graph.version := JsString version |}.

(** The element [<link rel="import" href="/bower_components/x-elem/x-elem.html">]. *)
Definition xElemLink : Cheerio.Element :=
  {| Cheerio.name := "link";
     Cheerio.attribs :=
       [("rel", "import"); ("href", "/bower_components/x-elem/x-elem.html")] |}.

(** Where a declaration pushed by the loop over the elements comes
    from. *)
Definition declarationOf (w : World) (opts : Inspection.IInspectionOptions)
           (elements : list Cheerio.Element) (tagName attributeName : string)
           (d : Inspection.IImportDeclaration) : Prop :=
  exists link attributeValue,
    In link elements
    /\ lookup attributeName (Cheerio.attribs link) = Some attributeValue
    /\ attributeValue <> ""
    /\ Inspection.importDetails d
       = {| Inspection.tagName := tagName;
            Inspection.attributeName := attributeName |}
    /\ Inspection.importPath d
       = Path.resolve (cwd w)
           [Inspection.sourceRoot opts;
            Inspection.applyResolutions (Inspection.importResolutions opts)
                                        attributeValue].

(* ================================================================== *)
(** * Examples                                                         *)
(* ================================================================== *)

Definition ENOENT {A : Type} (path : string) : Outcome A :=
  Raised (SystemError "ENOENT" path).

(** A project directory [/proj] without any file. *)
Definition emptyWorld : World :=
  {| cwd := "/proj";
     existsSync := fun _ => false;
     readFile := ENOENT;
     readdir := ENOENT;
     statIsDirectory := ENOENT;
     readJson := ENOENT;
     cheerioLoad := fun _ => [] |}.

(** The markup of the element [xElemLink]. *)
Definition xElemMarkup : string :=
  "<link rel=" ++ JsString.dquote ++ "import" ++ JsString.dquote
  ++ " href=" ++ JsString.dquote ++ "/bower_components/x-elem/x-elem.html"
  ++ JsString.dquote ++ ">".

(** [/proj/build/public/index.html] holds that markup. *)
Definition publicWorld : World :=
  {| cwd := "/proj";
     existsSync := fun path => String.eqb path "/proj/build/public/index.html";
     readFile := fun path =>
       if String.eqb path "/proj/build/public/index.html"
       then Returned xElemMarkup else ENOENT path;
     readdir := ENOENT;
     statIsDirectory := ENOENT;
     readJson := ENOENT;
     cheerioLoad := fun markup =>
       if String.eqb markup xElemMarkup then [xElemLink] else [] |}.

Definition publicOptions : Inspection.IInspectionOptions :=
  {| Inspection.entryPath := "index.html";
     Inspection.sourceRoot := "/proj/build/public";
     Inspection.importResolutions :=
       [("/bower_components", "../../bower_components")];
     Inspection.importTags := [("link", "href")] |}.

(** A Bower project: the children of [/proj/bower_components], all of
    them directories, and the manifests found under them. *)
Definition bowerWorld (children : list string)
           (manifests : IKeyValue Filesystem.DependencyJson) : World :=
  {| cwd := "/proj";
     existsSync := fun _ => false;
     readFile := ENOENT;
     readdir := fun path =>
       if String.eqb path "/proj/bower_components"
       then Returned children else ENOENT path;
     statIsDirectory := fun _ => Returned true;
     readJson := fun path =>
       match lookup path manifests with
       | Some manifest => Returned manifest
       | None => ENOENT path
       end;
     cheerioLoad := fun _ => [] |}.

(** The same, with one child that cannot be examined. *)
Definition brokenWorld (children : list string) (broken : string) : World :=
  {| cwd := "/proj";
     existsSync := fun _ => false;
     readFile := ENOENT;
     readdir := fun path =>
       if String.eqb path "/proj/bower_components"
       then Returned children else ENOENT path;
     statIsDirectory := fun path =>
       if String.eqb path broken then ENOENT path else Returned true;
     readJson := ENOENT;
     cheerioLoad := fun _ => [] |}.

Definition bowerOptions : Filesystem.IProjectOptions :=
  {| Filesystem.projectPath := "/proj";
     Filesystem.packageManager := JsString "bower" |}.

(** [A] and [C] both declare [B] at [^2.0.0]; the installed [B] is 2.3.1. *)
Definition manifestA : Filesystem.DependencyJson :=
  [("name", JsString "A"); ("version", JsString "1.0.0");
   ("dependencies", JsObject [("B", JsString "^2.0.0")])].

Definition manifestB : Filesystem.DependencyJson :=
  [("name", JsString "B"); ("version", JsString "2.3.1")].

Definition manifestC : Filesystem.DependencyJson :=
  [("name", JsString "C"); ("version", JsString "0.1.0");
   ("dependencies", JsObject [("B", JsString "^2.0.0")])].

Definition installedWorld : World :=
  bowerWorld ["A"; "B"; "C"]
    [("/proj/bower_components/A/.bower.json", manifestA);
     ("/proj/bower_components/B/.bower.json", manifestB);
     ("/proj/bower_components/C/.bower.json", manifestC)].

(** The manifest of each of [A], [B] and [C]. *)
Definition installedManifest (dependencyName : string)
  : Filesystem.DependencyJson :=
  if String.eqb dependencyName "A" then manifestA
  else if String.eqb dependencyName "B" then manifestB
  else manifestC.

(** [A] and [B] are installed; the manifest of [B] is missing. *)
Definition incompleteWorld : World :=
  bowerWorld ["A"; "B"]
    [("/proj/bower_components/A/.bower.json", manifestA)].


(* ================================================================== *)
(** * Strings                                                          *)
(* ================================================================== *)

Section StringFacts.

Local Open Scope string_scope.

Lemma append_nil_r (s : string) : s ++ "" = s.
Proof. induction s as [|c s IH]; simpl; [reflexivity | now rewrite IH]. Qed.

Lemma append_assoc (a b c : string) : (a ++ b) ++ c = a ++ b ++ c.
Proof. induction a as [|x a IH]; simpl; [reflexivity | now rewrite IH]. Qed.

Lemma length_append (a b : string) :
  String.length (a ++ b) = String.length a + String.length b.
Proof. induction a as [|x a IH]; simpl; [reflexivity | now rewrite IH]. Qed.

Lemma append_inv_head (a b c : string) : a ++ b = a ++ c -> b = c.
Proof.
  induction a as [|x a IH]; simpl; intro E; [exact E |].
  injection E as E. now apply IH.
Qed.

(** Two decompositions of one string with left parts of equal length. *)
Lemma append_eq_length (a b c d : string) :
  a ++ b = c ++ d -> String.length a = String.length c -> a = c /\ b = d.
Proof.
  revert c. induction a as [|x a IH]; intros [|y c] E L; simpl in *;
    try discriminate.
  - now split.
  - injection E as -> E. injection L as L.
    destruct (IH c E L) as [-> ->]. now split.
Qed.

Lemma startsWith_append (p s : string) : JsString.startsWith p (p ++ s) = true.
Proof.
  induction p as [|c p IH]; simpl; [reflexivity |].
  now rewrite Ascii.eqb_refl, IH.
Qed.

Lemma startsWith_inv (p s : string) :
  JsString.startsWith p s = true ->
  s = p ++ JsString.drop (String.length p) s.
Proof.
  revert s. induction p as [|c p IH]; intros s H; simpl in *.
  - reflexivity.
  - destruct s as [|d s]; [discriminate |].
    apply andb_true_iff in H as [Hc Hp].
    apply Ascii.eqb_eq in Hc as ->. simpl. f_equal. now apply IH.
Qed.

(** [splitAtFirst] returns a decomposition of the string. *)
Lemma splitAtFirst_sound (p s pre post : string) :
  JsString.splitAtFirst p s = Some (pre, post) -> s = pre ++ p ++ post.
Proof.
  revert pre post. induction s as [|c s IH]; intros pre post H.
  - simpl in H. destruct (JsString.startsWith p "") eqn:E; [|discriminate].
    injection H as <- <-. simpl. now apply startsWith_inv.
  - cbn [JsString.splitAtFirst] in H.
    destruct (JsString.startsWith p (String c s)) eqn:E.
    + injection H as <- <-. simpl. now apply startsWith_inv.
    + destruct (JsString.splitAtFirst p s) as [[pre' post']|] eqn:E';
        [|discriminate].
      injection H as <- <-. simpl. f_equal. now apply IH.
Qed.

(** ... and the one with the shortest left part. *)
Lemma splitAtFirst_first (p pre post : string) :
  exists pre' post',
    JsString.splitAtFirst p (pre ++ p ++ post) = Some (pre', post')
    /\ String.length pre' <= String.length pre.
Proof.
  induction pre as [|c pre IH].
  - simpl. exists "", (JsString.drop (String.length p) (p ++ post)).
    destruct (p ++ post) eqn:E.
    + simpl. destruct p; [|discriminate].
      simpl. split; [reflexivity | lia].
    + cbn [JsString.splitAtFirst]. rewrite <- E, startsWith_append.
      split; [reflexivity | simpl; lia].
  - destruct IH as (pre' & post' & E & L).
    cbn [append JsString.splitAtFirst].
    destruct (JsString.startsWith p (String c (pre ++ p ++ post))).
    + eexists _, _. split; [reflexivity | simpl; lia].
    + rewrite E. eexists _, _. split; [reflexivity | simpl; lia].
Qed.

(** A replacement text without a dollar is inserted as it is. *)
Lemma getSubstitution_plain (matched pre post replacement : string) :
  JsString.includes "$" replacement = false ->
  JsString.getSubstitution matched pre post replacement = replacement.
Proof.
  unfold JsString.includes.
  induction replacement as [|c r IH]; intro H; [reflexivity |].
  cbn [JsString.splitAtFirst JsString.startsWith] in H.
  cbn [JsString.getSubstitution].
  rewrite Ascii.eqb_sym in H.
  destruct (Ascii.eqb c "$") eqn:Ec.
  - simpl in H. discriminate.
  - simpl in H. f_equal. apply IH.
    destruct (JsString.splitAtFirst "$" r) as [[? ?]|]; [discriminate | reflexivity].
Qed.

End StringFacts.

(* ================================================================== *)
(** * The substitution step of the inspector                           *)
(* ================================================================== *)

(** With the entries [/views] and then [/a/views], the second [/views]
    of [/views/a/views/b] is no longer in the value that is resolved:
    the later entry rewrote the text after the first occurrence. *)
Lemma later_entry_rewrites_counterexample :
  ~ (forall (resolutions : IKeyValue string)
            (placeholder replacement pre post : string),
        In (placeholder, replacement) resolutions ->
        (forall pre' post' : string,
            (pre ++ placeholder ++ post = pre' ++ placeholder ++ post')%string ->
            String.length pre <= String.length pre') ->
        exists front,
          Inspection.applyResolutions resolutions (pre ++ placeholder ++ post)
          = (front ++ post)%string).
Proof.
  intro claim.
  destruct (claim [("/views", "views"); ("/a/views", "X")]
                  "/views" "views" "" "/a/views/b") as [front Hfront].
  - now left.
  - intros pre' post' _. simpl. lia.
  - apply (f_equal String.length) in Hfront.
    rewrite length_append, Nat.add_comm in Hfront.
    remember (String.length front) as n. vm_compute in Hfront. lia.
Qed.

(** C10, amended.  The step of the inspector for one entry (placeholder,
    replacement) of the resolutions map replaces the first occurrence of
    the placeholder only: when the value is [pre ++ placeholder ++ post]
    and no occurrence starts before the end of [pre], the value handed
    to the remaining entries is [pre], the inserted text and [post], so
    that everything after the first occurrence, further occurrences of
    the placeholder included, is left as it was by that step.  When the
    map has this one entry, that value is the one resolved into the
    import path. *)
Theorem replace_first_occurrence_only
        (placeholder replacement : string) (rest : IKeyValue string)
        (pre post : string) :
  (forall pre' post' : string,
      (pre ++ placeholder ++ post = pre' ++ placeholder ++ post')%string ->
      String.length pre <= String.length pre') ->
  Inspection.applyResolutions ((placeholder, replacement) :: rest)
                              (pre ++ placeholder ++ post)
  = Inspection.applyResolutions rest
      (pre ++ JsString.getSubstitution placeholder pre post replacement
           ++ post)
  /\ Inspection.applyResolutions [(placeholder, replacement)]
                                 (pre ++ placeholder ++ post)
     = (pre ++ JsString.getSubstitution placeholder pre post replacement
            ++ post)%string.
Proof.
  intro Hfirst.
  assert (Hstep : JsString.replace (pre ++ placeholder ++ post)
                                   placeholder replacement
                  = (pre ++ JsString.getSubstitution placeholder pre post
                                                     replacement
                         ++ post)%string).
  { unfold JsString.replace.
    destruct (splitAtFirst_first placeholder pre post)
      as (pre' & post' & E & L).
    rewrite E.
    pose proof (splitAtFirst_sound _ _ _ _ E) as D.
    pose proof (Hfirst pre' post' D) as L'.
    assert (Hlen : String.length pre = String.length pre') by lia.
    destruct (append_eq_length _ _ _ _ D Hlen) as [<- D'].
    apply append_inv_head in D'. now subst post'. }
  unfold Inspection.applyResolutions, R.toPairs. cbn [fold_left].
  now rewrite Hstep.
Qed.

(** In [/views/a/views/b] only the first [/views] is replaced. *)
Lemma replace_first_occurrence_only_witness :
  Inspection.applyResolutions [("/views", "views")] "/views/a/views/b"
  = "views/a/views/b".
Proof.
  apply (proj2 (replace_first_occurrence_only
                  "/views" "views" [] "" "/a/views/b"
                  (fun pre' post' _ => Nat.le_0_l (String.length pre')))).
Defined.

(* ================================================================== *)
(** * pruneVersionString                                               *)
(* ================================================================== *)

(** The range operator is not stripped from [^1.2.3]. *)
Lemma pruneVersionString_strips_counterexample :
  ~ (Utilities.pruneVersionString "^1.2.3" = Returned "1.2.3"
     /\ Utilities.pruneVersionString "~2.0" = Returned "2.0"
     /\ Utilities.pruneVersionString "*" = Returned "*").
Proof.
  intros [H _]. vm_compute in H. discriminate H.
Qed.

(** C3, amended.  The match of the pattern starts at the range operator
    when one directly precedes the version, so the operator is kept:
    [^1.2.3] is returned as [^1.2.3] and [~2.0] as [~2.0]; [*] is
    returned as [*].  Text before the operator or before the version is
    what is pruned: [v1.2.3] gives [1.2.3] and [polymer#^1.2.0] gives
    [^1.2.0]. *)
Theorem pruneVersionString_keeps_operator :
  Utilities.pruneVersionString "^1.2.3" = Returned "^1.2.3"
  /\ Utilities.pruneVersionString "~2.0" = Returned "~2.0"
  /\ Utilities.pruneVersionString "*" = Returned "*"
  /\ Utilities.pruneVersionString "v1.2.3" = Returned "1.2.3"
  /\ Utilities.pruneVersionString "polymer#^1.2.0" = Returned "^1.2.0".
Proof.
  repeat split; vm_compute; reflexivity.
Qed.

(* ================================================================== *)
(** * Version extraction                                               *)
(* ================================================================== *)

Lemma lookup_In_keys {T : Type} (k : string) (o : IKeyValue T) (v : T) :
  lookup k o = Some v -> In k (R.keys o).
Proof.
  induction o as [|[k' v'] o IH]; simpl; [discriminate |].
  destruct (String.eqb_spec k' k) as [->|_]; [now left | right; auto].
Qed.

Lemma containsString_In (x : string) (l : list string) :
  In x l -> R.containsString x l = true.
Proof.
  intro H. unfold R.containsString. apply existsb_exists.
  exists x. split; [exact H | apply String.eqb_refl].
Qed.

(** A list with two different members has two elements or more. *)
Lemma two_members_length {A : Type} (a b : A) (l : list A) :
  a <> b -> In a l -> In b l -> 2 <= List.length l.
Proof.
  intros Hab Ha Hb.
  destruct l as [|x [|y l]]; simpl in *; try lia; try contradiction.
  destruct Ha as [<-|[]], Hb as [<-|[]]. now contradiction Hab.
Qed.

(** C2.  For a manifest that has both a [version] and a [_release]
    field, wherever they stand among its keys, the version the registrar
    resolves is the value of [version]. *)
Theorem version_before_release
        (manifest : Filesystem.DependencyJson) (v : JsValue) :
  lookup "version" manifest = Some v ->
  In "_release" (R.keys manifest) ->
  Graph.version (Scanner.getDependencyMetadata manifest) = v.
Proof.
  intros Hv Hr.
  pose proof (lookup_In_keys _ _ _ Hv) as Hk.
  assert (Hlen : 2 <= List.length (R.keys manifest)).
  { apply (two_members_length "version" "_release"); [discriminate | assumption..]. }
  unfold Scanner.getDependencyMetadata, Utilities.firstDefinedProperty.
  cbn [Graph.version]. unfold R.intersection.
  destruct (Nat.ltb_spec (List.length (R.keys manifest))
                         (List.length ["version"; "_release"])) as [Hlt|_].
  - simpl in Hlt. lia.
  - cbn [filter]. rewrite !containsString_In by assumption.
    unfold R.uniq, R.head, R.prop, R.toPropertyKey. cbn [filter hd_error negb String.eqb Ascii.eqb Bool.eqb].
    now rewrite Hv.
Qed.

(** The manifest of the specification's example, in both key orders. *)
Lemma version_before_release_witness :
  Graph.version
    (Scanner.getDependencyMetadata
       [("name", JsString "x"); ("_release", JsString "1.0.0-release");
        ("version", JsString "1.0.0")]) = JsString "1.0.0"
  /\ Graph.version
       (Scanner.getDependencyMetadata
          [("version", JsString "1.0.0"); ("_release", JsString "1.0.0-release")])
     = JsString "1.0.0".
Proof.
  split.
  - apply version_before_release; [reflexivity | simpl; auto].
  - apply version_before_release; [reflexivity | simpl; auto].
Defined.

(* ================================================================== *)
(** * Failures                                                         *)
(* ================================================================== *)

(** C7.  When the resolved entry path does not exist, the one analysis
    the inspector yields fails with the file-not-found error; the only
    call issued is the existence test, so the file is neither read nor
    parsed, and no metadata is produced. *)
Theorem missing_entry_file (w : World) (opts : Inspection.IInspectionOptions) :
  let entry :=
    Path.resolve (cwd w) [Inspection.sourceRoot opts; Inspection.entryPath opts] in
  existsSync w entry = false ->
  map run (Inspection.inspectSourceFiles w opts)
  = [ (Raised (Error ("File not found at path " ++ JsString.dquote
                        ++ entry ++ JsString.dquote)),
       [ExistsSyncCall entry]) ].
Proof.
  intros entry Hmissing.
  unfold Inspection.inspectSourceFiles, Inspection.getMetadataForFile,
    Inspection.readFileAtPath, run, bind, call, raise.
  cbn [map app]. fold entry. now rewrite Hmissing.
Qed.

Lemma missing_entry_file_witness :
  map run (Inspection.inspectSourceFiles emptyWorld publicOptions)
  = [ (Raised (Error ("File not found at path " ++ JsString.dquote
                        ++ "/proj/build/public/index.html" ++ JsString.dquote)),
       [ExistsSyncCall "/proj/build/public/index.html"]) ].
Proof.
  apply (missing_entry_file emptyWorld publicOptions). reflexivity.
Defined.

Lemma isCase_false (label : string) (v : JsValue) :
  v <> JsString label -> Filesystem.isCase label v = false.
Proof.
  intro H. destruct v; try reflexivity. simpl.
  apply String.eqb_neq. congruence.
Qed.

Section ConfigurationError.

Context {G NodeName : Type} `{Graph.DependencyGraphAPI G NodeName}.

(** C8.  When the package manager is neither [bower] nor [npm], listing
    the installed dependencies and obtaining a manifest reader both throw
    the error [A 'packageManager' must be supplied], synchronously: no
    promise is returned and no call is issued.  Where the listing is
    declared [async], as in the earlier revision, its promise is rejected
    with that error, again without any call to the file system.  The
    construction of the graph fails with the same error before any call
    to the file system, whatever the implementation of the graph. *)
Theorem unknown_package_manager (w : World) (opts : Filesystem.IProjectOptions) :
  Filesystem.packageManager opts <> JsString "bower" ->
  Filesystem.packageManager opts <> JsString "npm" ->
  Filesystem.listInstalledDependencies w opts
  = Raised (Error "A 'packageManager' must be supplied")
  /\ Filesystem.readDependenciesJson w opts
     = Raised (Error "A 'packageManager' must be supplied")
  /\ run (async (Filesystem.listInstalledDependencies w opts))
     = (Raised (Error "A 'packageManager' must be supplied"), [])
  /\ run (Scanner.generateDependencyGraph (G := G) w opts)
     = (Raised (Error "A 'packageManager' must be supplied"), []).
Proof.
  intros Hbower Hnpm.
  apply isCase_false in Hbower, Hnpm.
  unfold Scanner.generateDependencyGraph, Scanner.registerDeclaredDependencies,
    Scanner.readInstalledDependenciesJson, Filesystem.listInstalledDependencies,
    Filesystem.readDependenciesJson, run, bind, async, raise.
  rewrite Hbower, Hnpm. repeat split.
Qed.

End ConfigurationError.

Lemma unknown_package_manager_witness :
  let opts := {| Filesystem.projectPath := "/proj";
                 Filesystem.packageManager := JsUndefined |} in
  Filesystem.listInstalledDependencies installedWorld opts
  = Raised (Error "A 'packageManager' must be supplied")
  /\ Filesystem.readDependenciesJson installedWorld opts
     = Raised (Error "A 'packageManager' must be supplied")
  /\ run (async (Filesystem.listInstalledDependencies installedWorld opts))
     = (Raised (Error "A 'packageManager' must be supplied"), [])
  /\ run (Scanner.generateDependencyGraph (G := Graph.DependencyGraph)
            installedWorld opts)
     = (Raised (Error "A 'packageManager' must be supplied"), []).
Proof.
  intro opts.
  apply (unknown_package_manager (G := Graph.DependencyGraph) installedWorld opts);
    discriminate.
Defined.

(* ================================================================== *)
(** * Import declarations                                              *)
(* ================================================================== *)

(** The loop of [resolve] stops with an absolute path as soon as one of
    the paths is absolute. *)
Lemma resolveLoop_absolute (paths : list string) (resolvedPath : string) :
  (exists path, In path paths /\ Path.isAbsolute path = true) ->
  snd (Path.resolveLoop paths resolvedPath) = true.
Proof.
  revert resolvedPath.
  induction paths as [|p paths IH]; intros acc (path & Hin & Habs).
  - destruct Hin.
  - cbn [Path.resolveLoop].
    destruct (String.eqb_spec p "") as [->|_].
    + destruct Hin as [<-|Hin]; [discriminate Habs |].
      apply IH. now exists path.
    + destruct (Path.isAbsolute p) eqn:Ep; [reflexivity |].
      destruct Hin as [<-|Hin]; [congruence |].
      apply IH. now exists path.
Qed.

(** In an absolute working directory [resolve] returns an absolute
    path. *)
Lemma resolve_absolute (workingDirectory : string) (paths : list string) :
  Path.isAbsolute workingDirectory = true ->
  Path.isAbsolute (Path.resolve workingDirectory paths) = true.
Proof.
  intro Habs. unfold Path.resolve.
  pose proof (resolveLoop_absolute (rev paths ++ [workingDirectory]) "") as L.
  destruct (Path.resolveLoop (rev paths ++ [workingDirectory]) "")
    as [resolvedPath resolvedAbsolute].
  cbn [snd] in L. rewrite L; [reflexivity |].
  exists workingDirectory. split; [|exact Habs].
  apply in_or_app. right. now left.
Qed.

Lemma inspectElements_In (w : World) (opts : Inspection.IInspectionOptions)
      (tagName attributeName : string) (elements : list Cheerio.Element)
      (declarations : list Inspection.IImportDeclaration)
      (d : Inspection.IImportDeclaration) :
  In d (fold_left (Inspection.inspectElement w opts tagName attributeName)
                  elements declarations) ->
  In d declarations \/ declarationOf w opts elements tagName attributeName d.
Proof.
  revert declarations.
  induction elements as [|link elements IH]; intros declarations Hin.
  - now left.
  - cbn [fold_left] in Hin. apply IH in Hin as [Hin|Hin].
    + unfold Inspection.inspectElement in Hin.
      destruct (lookup attributeName (Cheerio.attribs link))
        as [attributeValue|] eqn:E; [|now left].
      destruct (String.eqb_spec attributeValue "") as [->|Hne]; [now left |].
      apply in_app_or in Hin as [Hin|[<-|[]]]; [now left |].
      right. exists link, attributeValue. cbn.
      repeat split; auto.
    + right. destruct Hin as (l & v & Hl & rest).
      exists l, v. split; [now right | exact rest].
Qed.

Lemma inspectDocument_In (w : World) (opts : Inspection.IInspectionOptions)
      (doc : Cheerio.Document) (d : Inspection.IImportDeclaration) :
  In d (Inspection.inspectDocument w opts doc) ->
  exists tagName attributeName,
    In (tagName, attributeName) (Inspection.importTags opts)
    /\ declarationOf w opts (Cheerio.select tagName doc) tagName attributeName d.
Proof.
  unfold Inspection.inspectDocument, R.toPairs.
  assert (Hgen : forall tags declarations,
             In d (fold_left
                     (fun declarations '(tagName, attributeName) =>
                        fold_left
                          (Inspection.inspectElement w opts tagName attributeName)
                          (Cheerio.select tagName doc) declarations)
                     tags declarations) ->
             In d declarations
             \/ exists tagName attributeName,
                 In (tagName, attributeName) tags
                 /\ declarationOf w opts (Cheerio.select tagName doc)
                                  tagName attributeName d).
  { induction tags as [|[tagName attributeName] tags IH];
      intros declarations Hin.
    - now left.
    - cbn [fold_left] in Hin. apply IH in Hin as [Hin|Hin].
      + apply inspectElements_In in Hin as [Hin|Hin]; [now left |].
        right. exists tagName, attributeName. split; [now left | exact Hin].
      + right. destruct Hin as (t & a & Hin & Hd).
        exists t, a. split; [now right | exact Hd]. }
  intro Hin. apply Hgen in Hin as [[]|Hin]. exact Hin.
Qed.

(** What a successful analysis returns. *)
Lemma getMetadataForFile_returned (w : World)
      (opts : Inspection.IInspectionOptions) (filePath : string)
      (metadata : Inspection.IFileMetadata) :
  fst (run (Inspection.getMetadataForFile w opts filePath)) = Returned metadata ->
  exists contents,
    readFile w filePath = Returned contents
    /\ metadata
       = {| Inspection.filePath := filePath;
            Inspection.importDeclarations :=
              Inspection.inspectDocument w opts (cheerioLoad w contents) |}.
Proof.
  unfold Inspection.getMetadataForFile, Inspection.readFileAtPath,
    run, bind, call, raise, ret.
  cbn [app]. destruct (existsSync w filePath); cbn [negb].
  - destruct (readFile w filePath) as [contents|e]; cbn [fst];
      [|discriminate].
    intro E. injection E as <-. now exists contents.
  - cbn [fst]. discriminate.
Qed.

(** The import path of the specification's example holds the placeholder
    [/bower_components] of its resolutions map. *)
Lemma importPath_placeholder_counterexample :
  ~ (forall (w : World) (opts : Inspection.IInspectionOptions)
            (filePath : string) (metadata : Inspection.IFileMetadata)
            (d : Inspection.IImportDeclaration),
        Path.isAbsolute (cwd w) = true ->
        fst (run (Inspection.getMetadataForFile w opts filePath))
        = Returned metadata ->
        In d (Inspection.importDeclarations metadata) ->
        Path.isAbsolute (Inspection.importPath d) = true
        /\ forall placeholder,
            In placeholder (R.keys (Inspection.importResolutions opts)) ->
            JsString.includes placeholder (Inspection.importPath d) = false).
Proof.
  intro claim.
  destruct (claim publicWorld publicOptions "/proj/build/public/index.html"
                  {| Inspection.filePath := "/proj/build/public/index.html";
                     Inspection.importDeclarations :=
                       [ {| Inspection.importPath :=
                              "/proj/bower_components/x-elem/x-elem.html";
                            Inspection.importDetails :=
                              {| Inspection.tagName := "link";
                                 Inspection.attributeName := "href" |} |} ] |}
                  {| Inspection.importPath :=
                       "/proj/bower_components/x-elem/x-elem.html";
                     Inspection.importDetails :=
                       {| Inspection.tagName := "link";
                          Inspection.attributeName := "href" |} |})
    as [_ Hfree].
  - reflexivity.
  - vm_compute. reflexivity.
  - now left.
  - specialize (Hfree "/bower_components" (or_introl eq_refl)).
    vm_compute in Hfree. discriminate Hfree.
Qed.

(** C4, amended.  Every import declaration of the metadata produced for
    a file comes from an element selected by an entry (tag, attribute) of
    the import tags whose attribute is set to a non-empty value; its
    import path is the resolution, against the source root, of that
    value after the substitutions of the resolutions map, and it is an
    absolute path. *)
Theorem importPath_resolved_absolute
        (w : World) (opts : Inspection.IInspectionOptions) (filePath : string)
        (metadata : Inspection.IFileMetadata)
        (d : Inspection.IImportDeclaration) :
  Path.isAbsolute (cwd w) = true ->
  fst (run (Inspection.getMetadataForFile w opts filePath)) = Returned metadata ->
  In d (Inspection.importDeclarations metadata) ->
  (exists contents tagName attributeName,
      readFile w filePath = Returned contents
      /\ In (tagName, attributeName) (Inspection.importTags opts)
      /\ declarationOf w opts (Cheerio.select tagName (cheerioLoad w contents))
                       tagName attributeName d)
  /\ Path.isAbsolute (Inspection.importPath d) = true.
Proof.
  intros Hcwd Hrun Hin.
  apply getMetadataForFile_returned in Hrun as (contents & Hread & ->).
  cbn [Inspection.importDeclarations] in Hin.
  apply inspectDocument_In in Hin as (tagName & attributeName & Htag & Hd).
  split.
  - now exists contents, tagName, attributeName.
  - destruct Hd as (link & v & _ & _ & _ & _ & ->).
    now apply resolve_absolute.
Qed.

Lemma importPath_resolved_absolute_witness :
  let d := {| Inspection.importPath := "/proj/bower_components/x-elem/x-elem.html";
              Inspection.importDetails :=
                {| Inspection.tagName := "link";
                   Inspection.attributeName := "href" |} |} in
  (exists contents tagName attributeName,
      readFile publicWorld "/proj/build/public/index.html" = Returned contents
      /\ In (tagName, attributeName) (Inspection.importTags publicOptions)
      /\ declarationOf publicWorld publicOptions
           (Cheerio.select tagName (cheerioLoad publicWorld contents))
           tagName attributeName d)
  /\ Path.isAbsolute (Inspection.importPath d) = true.
Proof.
  intro d.
  apply (importPath_resolved_absolute publicWorld publicOptions
           "/proj/build/public/index.html"
           {| Inspection.filePath := "/proj/build/public/index.html";
              Inspection.importDeclarations := [d] |} d).
  - reflexivity.
  - vm_compute. reflexivity.
  - simpl. left. reflexivity.
Defined.

(** C5.  With the import tags mapping [link] to [href], the resolutions
    mapping [/bower_components] to [../../bower_components] and the
    source root [/proj/build/public], an entry file whose markup holds
    the one link element of the example yields one import declaration;
    its import path is [/proj/bower_components/x-elem/x-elem.html], the
    absolute resolution of
    [/proj/build/public/../../bower_components/x-elem/x-elem.html]. *)
Theorem import_resolution_end_to_end (w : World) (entry contents : string) :
  let opts := {| Inspection.entryPath := entry;
                 Inspection.sourceRoot := "/proj/build/public";
                 Inspection.importResolutions :=
                   [("/bower_components", "../../bower_components")];
                 Inspection.importTags := [("link", "href")] |} in
  let file := Path.resolve (cwd w) ["/proj/build/public"; entry] in
  existsSync w file = true ->
  readFile w file = Returned contents ->
  Cheerio.select "link" (cheerioLoad w contents) = [xElemLink] ->
  map (fun analysis => fst (run analysis)) (Inspection.inspectSourceFiles w opts)
  = [ Returned
        {| Inspection.filePath := file;
           Inspection.importDeclarations :=
             [ {| Inspection.importPath :=
                    "/proj/bower_components/x-elem/x-elem.html";
                  Inspection.importDetails :=
                    {| Inspection.tagName := "link";
                       Inspection.attributeName := "href" |} |} ] |} ]
  /\ Path.resolve (cwd w)
       ["/proj/build/public/../../bower_components/x-elem/x-elem.html"]
     = "/proj/bower_components/x-elem/x-elem.html".
Proof.
  intros opts file Hexists Hread Hlink. split; [|reflexivity].
  unfold Inspection.inspectSourceFiles, Inspection.getMetadataForFile,
    Inspection.readFileAtPath, run, bind, call, raise, ret.
  cbn [map app Inspection.sourceRoot Inspection.entryPath opts].
  fold file. rewrite Hexists. cbn [negb]. rewrite Hread. cbn [fst].
  unfold Inspection.inspectDocument, R.toPairs.
  cbn [Inspection.importTags opts fold_left]. rewrite Hlink.
  reflexivity.
Qed.

Lemma import_resolution_end_to_end_witness :
  map (fun analysis => fst (run analysis))
      (Inspection.inspectSourceFiles publicWorld publicOptions)
  = [ Returned
        {| Inspection.filePath := "/proj/build/public/index.html";
           Inspection.importDeclarations :=
             [ {| Inspection.importPath :=
                    "/proj/bower_components/x-elem/x-elem.html";
                  Inspection.importDetails :=
                    {| Inspection.tagName := "link";
                       Inspection.attributeName := "href" |} |} ] |} ]
  /\ Path.resolve "/proj"
       ["/proj/build/public/../../bower_components/x-elem/x-elem.html"]
     = "/proj/bower_components/x-elem/x-elem.html".
Proof.
  apply (import_resolution_end_to_end publicWorld "index.html" xElemMarkup);
    reflexivity.
Defined.

(* ================================================================== *)
(** * The directory enumerator                                         *)
(* ================================================================== *)

Lemma split_not_nil (s : string) : JsString.split Path.sep s <> [].
Proof.
  destruct s as [|c s]; simpl; [discriminate |].
  destruct (Ascii.eqb c Path.sep); [discriminate |].
  destruct (JsString.split Path.sep s); discriminate.
Qed.

(** Splitting at a separator splits the two sides. *)
Lemma split_append_sep (a b : string) :
  JsString.split Path.sep (a ++ String Path.sep b)
  = (JsString.split Path.sep a ++ JsString.split Path.sep b)%list.
Proof.
  induction a as [|c a IH]; cbn [append JsString.split].
  - now rewrite Ascii.eqb_refl.
  - destruct (Ascii.eqb c Path.sep); [now rewrite IH |].
    rewrite IH.
    destruct (JsString.split Path.sep a) as [|seg rest] eqn:E; [|reflexivity].
    now apply split_not_nil in E.
Qed.

Lemma split_noSeparator (s : string) :
  noSeparator s = true -> JsString.split Path.sep s = [s].
Proof.
  induction s as [|c s IH]; cbn [noSeparator JsString.split]; [reflexivity |].
  intro H. apply andb_true_iff in H as [Hc Hs].
  apply negb_true_iff in Hc. now rewrite Hc, (IH Hs).
Qed.

(** The loop of [resolve] prepends to the path resolved so far nothing,
    or a text that ends with a separator. *)
Lemma resolveLoop_prepends (paths : list string) (resolvedPath : string) :
  exists prefix,
    fst (Path.resolveLoop paths resolvedPath) = (prefix ++ resolvedPath)%string
    /\ (prefix = "" \/ exists before, prefix = (before ++ "/")%string).
Proof.
  revert resolvedPath.
  induction paths as [|p paths IH]; intro acc; cbn [Path.resolveLoop].
  - exists "". split; [reflexivity | now left].
  - destruct (String.eqb p ""); [apply IH |].
    destruct (Path.isAbsolute p).
    + exists (p ++ "/")%string. cbn [fst].
      split; [now rewrite append_assoc | right; now exists p].
    + destruct (IH (p ++ "/" ++ acc)%string) as (prefix & E & _).
      exists (prefix ++ p ++ "/")%string. split.
      * rewrite E. now rewrite !append_assoc.
      * right. exists (prefix ++ p)%string. now rewrite append_assoc.
Qed.

Lemma join_snoc (l : list string) (s : string) :
  l <> [] ->
  JsString.join "/" (l ++ [s]) = (JsString.join "/" l ++ "/" ++ s)%string.
Proof.
  induction l as [|x l IH]; intro Hne; [contradiction |].
  destruct l as [|y l].
  - reflexivity.
  - change (JsString.join "/" ((x :: y :: l) ++ [s]))
      with (x ++ "/" ++ JsString.join "/" ((y :: l) ++ [s]))%string.
    rewrite IH by discriminate.
    change (JsString.join "/" (x :: y :: l))
      with (x ++ "/" ++ JsString.join "/" (y :: l))%string.
    now rewrite !append_assoc.
Qed.

Lemma entryName_inv (s : string) :
  entryName s = true ->
  s <> "" /\ s <> "." /\ s <> ".." /\ noSeparator s = true.
Proof.
  unfold entryName. intro H.
  repeat (apply andb_true_iff in H as [H ?]).
  repeat split; try assumption;
    apply String.eqb_neq; now apply negb_true_iff.
Qed.

Lemma noSeparator_relative (s : string) :
  noSeparator s = true -> Path.isAbsolute s = false.
Proof.
  destruct s as [|c s]; simpl; [reflexivity |].
  intro H. apply andb_true_iff in H as [H _]. now apply negb_true_iff.
Qed.

(** A segment that is the name of an entry is pushed. *)
Lemma normalizeSegment_entry (allowAboveRoot : bool) (stack : list string)
      (s : string) :
  entryName s = true ->
  Path.normalizeSegment allowAboveRoot stack s = s :: stack.
Proof.
  intro H. apply entryName_inv in H as (H1 & H2 & H3 & _).
  unfold Path.normalizeSegment.
  apply String.eqb_neq in H1, H2, H3. now rewrite H1, H2, H3.
Qed.

Lemma resolveLoop_relative (path : string) (rest : list string)
      (resolvedPath : string) :
  path <> "" -> Path.isAbsolute path = false ->
  Path.resolveLoop (path :: rest) resolvedPath
  = Path.resolveLoop rest (path ++ "/" ++ resolvedPath).
Proof.
  intros Hne Hrel. cbn [Path.resolveLoop].
  apply String.eqb_neq in Hne. now rewrite Hne, Hrel.
Qed.

(** The last segment of a child resolved in a directory is the child. *)
Lemma resolve_child_ending (workingDirectory directory child : string) :
  entryName child = true ->
  List.last (JsString.split Path.sep
               (Path.resolve workingDirectory [directory; child])) ""
  = child.
Proof.
  intro Hentry.
  pose proof (entryName_inv _ Hentry) as (Hne & _ & _ & Hns).
  unfold Path.resolve.
  change (rev [directory; child] ++ [workingDirectory])%list
    with (child :: [directory; workingDirectory]).
  rewrite (resolveLoop_relative _ _ _ Hne (noSeparator_relative _ Hns)).
  destruct (resolveLoop_prepends [directory; workingDirectory]
              (child ++ "/" ++ "")) as (prefix & E & Hprefix).
  destruct (Path.resolveLoop [directory; workingDirectory] (child ++ "/" ++ ""))
    as [resolvedPath resolvedAbsolute].
  cbn [fst] in E. subst resolvedPath.
  assert (Hsplit : exists segments,
             JsString.split Path.sep (prefix ++ child ++ "/" ++ "")
             = (segments ++ [child; ""])%list).
  { change (child ++ "/" ++ "")%string with (child ++ String Path.sep "")%string.
    destruct Hprefix as [->|[before ->]].
    - exists []. cbn [append]. rewrite split_append_sep.
      now rewrite (split_noSeparator _ Hns).
    - exists (JsString.split Path.sep before).
      rewrite append_assoc.
      change ("/" ++ child ++ String Path.sep "")%string
        with (String Path.sep (child ++ String Path.sep "")).
      rewrite !split_append_sep. now rewrite (split_noSeparator _ Hns). }
  destruct Hsplit as (segments & Hsplit).
  unfold Path.normalizeString. rewrite Hsplit.
  rewrite fold_left_app. cbn [fold_left].
  rewrite (normalizeSegment_entry _ _ _ Hentry).
  cbn [Path.normalizeSegment String.eqb]. cbn [rev].
  set (kept := rev (fold_left
                      (Path.normalizeSegment (negb resolvedAbsolute))
                      segments [])).
  assert (Hlast : forall front : string,
             List.last (JsString.split Path.sep (front ++ String Path.sep child)) ""
             = child).
  { intro front. rewrite split_append_sep, (split_noSeparator _ Hns).
    apply last_last. }
  destruct kept as [|k kept'] eqn:Ek.
  - cbn [app JsString.join]. destruct resolvedAbsolute.
    + apply (Hlast "").
    + apply String.eqb_neq in Hne. rewrite Hne.
      now rewrite (split_noSeparator _ Hns).
  - rewrite join_snoc by discriminate.
    set (joined := JsString.join "/" (k :: kept')).
    destruct resolvedAbsolute.
    + change ("/" ++ joined ++ "/" ++ child)%string
        with (String Path.sep joined ++ String Path.sep child)%string.
      apply Hlast.
    + destruct (String.eqb_spec (joined ++ "/" ++ child) "") as [E|_].
      * destruct joined; discriminate E.
      * apply (Hlast joined).
Qed.

(** A name passes the pattern of [filterDotFiles] when it begins with a
    word character. *)
Lemma search_anchored_later (r : Regex.regex) (i : nat) (s : string) :
  Regex.search (Regex.Seq Regex.Bol r) (S i) s = None.
Proof.
  revert i. induction s as [|c s IH]; intro i; simpl; [reflexivity | apply IH].
Qed.

Lemma test_word_start (s : string) :
  Regex.test (Regex.Seq Regex.Bol Regex.word) s = beginsWithWordCharacter s.
Proof.
  unfold Regex.test. destruct s as [|c s]; [reflexivity |].
  cbn [Regex.search]. unfold Regex.matchAt, Regex.word.
  cbn [Regex.run Nat.eqb beginsWithWordCharacter].
  destruct (Regex.isWord c); [reflexivity |].
  now rewrite search_anchored_later.
Qed.

(** A filter whose calls all answer returns what the pure filter keeps. *)
Lemma filterIO_answers {A B : Type} (f : A -> B) (event : B -> Event)
      (answer : B -> Outcome bool) (keep : A -> bool) (l : list A) :
  (forall x, In x l -> answer (f x) = Returned (keep x)) ->
  forall tr,
    fst (filterIO (fun y => call (event y) (answer y)) (map f l) tr)
    = Returned (map f (filter keep l)).
Proof.
  induction l as [|x l IH]; intros Hanswer tr; [reflexivity |].
  cbn [map filterIO filter]. unfold bind at 1. unfold call at 1.
  rewrite (Hanswer x (or_introl eq_refl)).
  unfold bind at 1.
  specialize (IH (fun y Hy => Hanswer y (or_intror Hy))
                 (tr ++ [event (f x)])%list).
  destruct (filterIO (fun y => call (event y) (answer y)) (map f l)
                     (tr ++ [event (f x)])%list)
    as [[rest|e] tr'] eqn:E; cbn [fst] in IH; [|discriminate IH].
  injection IH as ->. unfold ret. cbn [fst].
  now destruct (keep x).
Qed.

Lemma filter_twice {A : Type} (p q : A -> bool) (l : list A) :
  filter q (filter p l) = filter (fun x => p x && q x) l.
Proof.
  induction l as [|x l IH]; simpl; [reflexivity |].
  destruct (p x); simpl; [destruct (q x) |]; now rewrite IH.
Qed.

(** The names enumerated in a directory: the children that are
    directories and begin with a word character, in the order of the
    listing. *)
Lemma enumerated_in_directory (w : World) (directory : string)
      (children : list string) (isDirectory : string -> bool) :
  readdir w directory = Returned children ->
  (forall child, In child children -> entryName child = true) ->
  (forall child, In child children ->
     statIsDirectory w (Path.resolve (cwd w) [directory; child])
     = Returned (isDirectory child)) ->
  fst (run (let* paths := Filesystem.listDirectoryContents w directory in
            Filesystem.extractFolderNamesSync w paths))
  = Returned (filter (fun child => isDirectory child
                                   && beginsWithWordCharacter child) children).
Proof.
  intros Hreaddir Hnames Hstat.
  unfold run, Filesystem.listDirectoryContents. unfold bind at 1 2.
  unfold call at 1. rewrite Hreaddir. unfold ret at 1.
  unfold Filesystem.extractFolderNamesSync, Filesystem.extractFoldersSync.
  unfold bind at 1. unfold Filesystem.resolve.
  set (item := fun child => Path.resolve (cwd w) [directory; child]).
  (* which of the resolved paths are directories *)
  pose proof (filterIO_answers item StatSyncCall (statIsDirectory w)
                isDirectory children Hstat) as Hkeep.
  specialize (Hkeep ([] ++ [ReaddirCall directory])%list).
  destruct (filterIO _ (map item children) _) as [[folders|e] tr'];
    cbn [fst] in Hkeep; [|discriminate Hkeep].
  injection Hkeep as ->. unfold ret. cbn [fst]. f_equal.
  (* the endings of the paths kept are the children *)
  unfold Filesystem.extractPathEndingsSync, Filesystem.filterDotFiles.
  rewrite map_map.
  rewrite (map_ext_in _ (fun child => child)).
  - rewrite map_id, filter_twice.
    apply filter_ext. intro child. now rewrite test_word_start.
  - intros child Hin. apply filter_In in Hin as [Hin _].
    apply resolve_child_ending. now apply Hnames.
Qed.

(** C9.  For a Bower or an npm project, when the dependencies directory
    lists [children], the names the awaited listing of the installed
    dependencies returns are the children that are directories and begin
    with a word character, in the order of the listing. *)
Theorem enumerated_names (w : World) (opts : Filesystem.IProjectOptions)
        (folder : string) (children : list string)
        (isDirectory : string -> bool) :
  (Filesystem.packageManager opts = JsString "bower"
   /\ folder = "bower_components")
  \/ (Filesystem.packageManager opts = JsString "npm"
      /\ folder = "node_modules") ->
  let directory := Path.resolve (cwd w) [Filesystem.projectPath opts; folder] in
  readdir w directory = Returned children ->
  (forall child, In child children -> entryName child = true) ->
  (forall child, In child children ->
     statIsDirectory w (Path.resolve (cwd w) [directory; child])
     = Returned (isDirectory child)) ->
  fst (run (async (Filesystem.listInstalledDependencies w opts)))
  = Returned (filter (fun child => isDirectory child
                                   && beginsWithWordCharacter child) children).
Proof.
  intros Hkind directory Hreaddir Hnames Hstat.
  unfold Filesystem.listInstalledDependencies.
  destruct Hkind as [[-> ->]|[-> ->]];
    cbn [Filesystem.isCase String.eqb Ascii.eqb Bool.eqb async];
    now apply enumerated_in_directory.
Qed.

(** The listing [.git], [lodash], [left-pad], all of them directories. *)
Lemma enumerated_names_witness :
  fst (run (async (Filesystem.listInstalledDependencies
                     (bowerWorld [".git"; "lodash"; "left-pad"] [])
                     bowerOptions)))
  = Returned ["lodash"; "left-pad"].
Proof.
  apply (enumerated_names (bowerWorld [".git"; "lodash"; "left-pad"] [])
           bowerOptions "bower_components" [".git"; "lodash"; "left-pad"]
           (fun _ => true)).
  - left. split; reflexivity.
  - reflexivity.
  - intros child [<-|[<-|[<-|[]]]]; reflexivity.
  - intros child _. reflexivity.
Defined.

(* ================================================================== *)
(** * Implied dependencies                                             *)
(* ================================================================== *)

Section ImpliedDependencies.

Import Graph.

Lemma equals_string_l (s : string) (x : JsValue) :
  R.equals (JsString s) x = true -> x = JsString s.
Proof.
  destruct x; simpl; try discriminate.
  intro H. apply String.eqb_eq in H. now subst.
Qed.

Lemma equals_string_r (s : string) (x : JsValue) :
  R.equals x (JsString s) = true -> x = JsString s.
Proof.
  destruct x; simpl; try discriminate.
  intro H. apply String.eqb_eq in H. now subst.
Qed.

Lemma sameIdentity_identityOf (id : IDependencyMetadata) (n v : string) :
  sameIdentity id (identityOf n v) = true -> id = identityOf n v.
Proof.
  destruct id as [idn idv]. unfold sameIdentity, identityOf. cbn.
  intro H. apply andb_true_iff in H as [Hn Hv].
  apply equals_string_r in Hn, Hv. now subst.
Qed.

Lemma sameIdentity_strings (n v : string) :
  sameIdentity (identityOf n v) (identityOf n v) = true.
Proof.
  unfold sameIdentity, identityOf. cbn. now rewrite !String.eqb_refl.
Qed.

(** A version string is an alias of a name when a real node has that
    name and that version. *)
Lemma aliasesOf_In (g : DependencyGraph) (n v : string) :
  In (JsString v) (aliasesOf g n)
  <-> exists manifest,
      In {| identity := identityOf n v; kind := Real manifest |} (nodes g).
Proof.
  unfold aliasesOf. rewrite in_map_iff. split.
  - intros ([[idn idv] k] & Hv & Hin). cbn in Hv. subst idv.
    apply filter_In in Hin as [Hin Hreal]. cbn in Hreal.
    apply andb_true_iff in Hreal as [Hreal Hname].
    apply equals_string_r in Hname. subst idn.
    destruct k as [manifest|]; [|discriminate Hreal].
    now exists manifest.
  - intros (manifest & Hin).
    exists {| identity := identityOf n v; kind := Real manifest |}.
    split; [reflexivity |]. apply filter_In. split; [exact Hin |].
    cbn. apply String.eqb_refl.
Qed.

Lemma contains_string (v : string) (l : list JsValue) :
  R.contains (JsString v) l = true <-> In (JsString v) l.
Proof.
  unfold R.contains. rewrite existsb_exists. split.
  - intros (x & Hin & Heq). apply equals_string_l in Heq. now subst.
  - intro Hin. exists (JsString v). split; [exact Hin |].
    simpl. apply String.eqb_refl.
Qed.

(** Adding a node keeps the nodes there are. *)
Lemma addNode_keeps (g : DependencyGraph) (n n' : Node) :
  In n' (nodes g) -> In n' (nodes (addNode g n)).
Proof.
  unfold addNode. destruct (hasNode g (identity n)); cbn; [tauto |].
  intro H. apply in_or_app. now left.
Qed.

Lemma addNode_In (g : DependencyGraph) (n n' : Node) :
  In n' (nodes (addNode g n)) -> In n' (nodes g) \/ n' = n.
Proof.
  unfold addNode. destruct (hasNode g (identity n)); cbn; [tauto |].
  intro H. apply in_app_or in H as [H|[H|[]]]; auto.
Qed.

(** The resolver adds implied nodes only, so the aliases stay. *)
Lemma addImplied_aliases (g : DependencyGraph) (id : IDependencyMetadata)
      (n : string) :
  aliasesOf (addNode g {| identity := id; kind := Implied |}) n = aliasesOf g n.
Proof.
  unfold addNode, aliasesOf. cbn [identity].
  destruct (hasNode g id); cbn [nodes]; [reflexivity |].
  rewrite filter_app. cbn. now rewrite app_nil_r.
Qed.

Lemma registerImplied_aliases (g : DependencyGraph) (pair : string * JsValue)
      (n : string) :
  aliasesOf (Scanner.registerImplied g pair) n = aliasesOf g n.
Proof.
  unfold Scanner.registerImplied. destruct pair as [name version].
  destruct (negb _); [apply addImplied_aliases | reflexivity].
Qed.

Lemma registerImplied_keeps (g : DependencyGraph) (pair : string * JsValue)
      (n : Node) :
  In n (nodes g) -> In n (nodes (Scanner.registerImplied g pair)).
Proof.
  unfold Scanner.registerImplied. destruct pair as [name version].
  destruct (negb _); [apply addNode_keeps | tauto].
Qed.

Lemma registerImplied_all_aliases (pairs : list (string * JsValue))
      (g : DependencyGraph) (n : string) :
  aliasesOf (fold_left Scanner.registerImplied pairs g) n = aliasesOf g n.
Proof.
  revert g. induction pairs as [|pair pairs IH]; intro g; [reflexivity |].
  cbn [fold_left]. now rewrite IH, registerImplied_aliases.
Qed.

Lemma registerImplied_all_keeps (pairs : list (string * JsValue))
      (g : DependencyGraph) (n : Node) :
  In n (nodes g) -> In n (nodes (fold_left Scanner.registerImplied pairs g)).
Proof.
  revert g. induction pairs as [|pair pairs IH]; intros g H; [exact H |].
  cbn [fold_left]. now apply IH, registerImplied_keeps.
Qed.

(** The step of the resolver for a pair whose version is not an alias of
    its name leaves the graph with the implied node of the pair. *)
Lemma registerImplied_not_aliased (g : DependencyGraph) (n v : string) :
  ~ In (JsString v) (aliasesOf g n) ->
  In {| identity := identityOf n v; kind := Implied |}
     (nodes (Scanner.registerImplied g (n, JsString v))).
Proof.
  intro Hnot. unfold Scanner.registerImplied.
  cbn [getDependencyAliases addImpliedDependency SpecGraph].
  destruct (R.contains (JsString v) (aliasesOf g n)) eqn:Ec.
  - apply contains_string in Ec. contradiction.
  - cbn [negb]. unfold addNode. cbn [identity].
    fold (identityOf n v).
    destruct (hasNode g (identityOf n v)) eqn:Eh.
    + unfold hasNode in Eh. apply existsb_exists in Eh as (nd & Hin & Hsame).
      apply sameIdentity_identityOf in Hsame.
      destruct nd as [id [manifest|]]; cbn in Hsame; subst id.
      * exfalso. apply Hnot. apply aliasesOf_In. now exists manifest.
      * exact Hin.
    + cbn [nodes]. apply in_or_app. right. now left.
Qed.

(** The resolver on a graph in which a pair is declared and its version
    is not an alias of its name. *)
Lemma resolver_registers (g : DependencyGraph) (n v : string) :
  In (n, JsString v) (Scanner.getAllDependencyPairs g) ->
  ~ In (JsString v) (aliasesOf g n) ->
  In {| identity := identityOf n v; kind := Implied |}
     (nodes (Scanner.registerImpliedDependencies g)).
Proof.
  intros Hpair Hnot. unfold Scanner.registerImpliedDependencies.
  apply in_split in Hpair as (before & after & ->).
  rewrite fold_left_app. cbn [fold_left].
  apply registerImplied_all_keeps, registerImplied_not_aliased.
  now rewrite registerImplied_all_aliases.
Qed.

End ImpliedDependencies.



Section SingleNode.

Import Graph.

Lemma existsb_false {A : Type} (f : A -> bool) (l : list A) (x : A) :
  existsb f l = false -> In x l -> f x = false.
Proof.
  intros H Hin. destruct (f x) eqn:E; [|reflexivity].
  rewrite <- H. symmetry. apply existsb_exists. now exists x.
Qed.

Lemma distinctIdentities_snoc (l : list Node) (n : Node) :
  distinctIdentities l ->
  (forall x, In x l -> sameIdentity (identity x) (identity n) = false) ->
  distinctIdentities (l ++ [n]).
Proof.
  induction l as [|x l IH]; intros Hd Hn; cbn.
  - split; [intros ? [] | exact I].
  - destruct Hd as [Hx Hd]. split.
    + intros y Hy. apply in_app_or in Hy as [Hy|[<-|[]]].
      * now apply Hx.
      * apply Hn. now left.
    + apply IH; [exact Hd |]. intros y Hy. apply Hn. now right.
Qed.

Lemma addNode_distinct (g : DependencyGraph) (n : Node) :
  distinctIdentities (nodes g) -> distinctIdentities (nodes (addNode g n)).
Proof.
  intro Hd. unfold addNode.
  destruct (hasNode g (identity n)) eqn:E; [exact Hd |].
  cbn [nodes]. apply distinctIdentities_snoc; [exact Hd |].
  intros x Hx. unfold hasNode in E.
  apply (existsb_false _ _ x E Hx).
Qed.

Lemma registerManifests_distinct (manifests : list Filesystem.DependencyJson)
      (g : DependencyGraph) :
  distinctIdentities (nodes g) ->
  distinctIdentities (nodes (Scanner.registerManifests g manifests)).
Proof.
  unfold Scanner.registerManifests. revert g.
  induction manifests as [|m manifests IH]; intros g Hd; [exact Hd |].
  cbn [fold_left]. apply IH. now apply addNode_distinct.
Qed.

Lemma registerImplied_all_distinct (pairs : list (string * JsValue))
      (g : DependencyGraph) :
  distinctIdentities (nodes g) ->
  distinctIdentities (nodes (fold_left Scanner.registerImplied pairs g)).
Proof.
  revert g. induction pairs as [|[n v] pairs IH]; intros g Hd; [exact Hd |].
  cbn [fold_left]. apply IH. unfold Scanner.registerImplied.
  destruct (negb _); [now apply addNode_distinct | exact Hd].
Qed.

Lemma filter_none {A : Type} (p : A -> bool) (l : list A) :
  (forall x, In x l -> p x = false) -> filter p l = [].
Proof.
  induction l as [|x l IH]; intro H; [reflexivity |].
  cbn. rewrite (H x (or_introl eq_refl)).
  apply IH. intros y Hy. apply H. now right.
Qed.

(** Among nodes of distinct identities, one at most has a given identity
    of strings. *)
Lemma distinctIdentities_single (l : list Node) (n v : string) :
  distinctIdentities l ->
  List.length
    (filter (fun nd => sameIdentity (identity nd) (identityOf n v)) l) <= 1.
Proof.
  induction l as [|x l IH]; intro Hd; cbn [filter]; [cbn; lia |].
  destruct Hd as [Hx Hd].
  destruct (sameIdentity (identity x) (identityOf n v)) eqn:E.
  - apply sameIdentity_identityOf in E.
    rewrite filter_none; [cbn; lia |].
    intros y Hy. specialize (Hx y Hy). rewrite E in Hx.
    destruct (sameIdentity (identity y) (identityOf n v)) eqn:Ey;
      [|reflexivity].
    apply sameIdentity_identityOf in Ey. rewrite Ey in Hx.
    now rewrite sameIdentity_strings in Hx.
  - now apply IH.
Qed.

(** A list of one element at most that holds [x] is [[x]]. *)
Lemma single_member {A : Type} (x : A) (l : list A) :
  List.length l <= 1 -> In x l -> l = [x].
Proof.
  destruct l as [|y [|z l]]; simpl; intros Hl Hin.
  - contradiction.
  - destruct Hin as [->|[]]. reflexivity.
  - lia.
Qed.

(** What the registration of the declared dependencies returns. *)
Lemma registerDeclared_returned (w : World) (opts : Filesystem.IProjectOptions)
      (declared : DependencyGraph) :
  fst (run (Scanner.registerDeclaredDependencies w newGraph opts))
  = Returned declared ->
  exists manifests, declared = Scanner.registerManifests newGraph manifests.
Proof.
  unfold Scanner.registerDeclaredDependencies, run. unfold bind at 1.
  destruct (Scanner.readInstalledDependenciesJson w opts [])
    as [[manifests|e] tr]; cbn [fst ret]; [|discriminate].
  unfold ret. cbn [fst]. intro E. injection E as <-. now exists manifests.
Qed.

End SingleNode.

(** C6.  Once the declared dependencies are registered and the resolver
    has run, for every pair (name, version): the graph holds one node at
    most for the pair; if it holds the implied node of the pair, no real
    node has that version under that name; and if the pair is declared,
    by however many nodes, and the version is not an alias of the name,
    the graph holds for the pair the implied node and nothing else. *)
Theorem implied_node_single
        (w : World) (opts : Filesystem.IProjectOptions)
        (declared : Graph.DependencyGraph) (name version : string) :
  fst (run (Scanner.registerDeclaredDependencies w Graph.newGraph opts))
  = Returned declared ->
  let g := Scanner.registerImpliedDependencies declared in
  let implied := {| Graph.identity := identityOf name version;
                    Graph.kind := Graph.Implied |} in
  List.length (nodesAt g (identityOf name version)) <= 1
  /\ (In implied (Graph.nodes g) ->
      ~ In (JsString version) (Graph.getDependencyAliases g name))
  /\ (In (name, JsString version) (Scanner.getAllDependencyPairs declared) ->
      ~ In (JsString version) (Graph.getDependencyAliases declared name) ->
      nodesAt g (identityOf name version) = [implied]).
Proof.
  intros Hrun g implied.
  apply registerDeclared_returned in Hrun as (manifests & ->).
  assert (Hd : distinctIdentities (Graph.nodes g)).
  { apply registerImplied_all_distinct, registerManifests_distinct. exact I. }
  pose proof (distinctIdentities_single _ name version Hd) as Hsingle.
  fold (nodesAt g (identityOf name version)) in Hsingle.
  assert (Hat : forall nd, In nd (Graph.nodes g) ->
                  Graph.identity nd = identityOf name version ->
                  In nd (nodesAt g (identityOf name version))).
  { intros nd Hin Hid. apply filter_In. split; [exact Hin |].
    rewrite Hid. apply sameIdentity_strings. }
  split; [exact Hsingle | split].
  - intros Himplied Halias.
    apply aliasesOf_In in Halias as (manifest & Hreal).
    apply Hat in Himplied; [|reflexivity].
    apply Hat in Hreal; [|reflexivity].
    assert (Hne : implied
                  <> {| Graph.identity := identityOf name version;
                        Graph.kind := Graph.Real manifest |})
      by (unfold implied; discriminate).
    pose proof (two_members_length _ _ _ Hne Himplied Hreal).
    lia.
  - intros Hpair Hnot.
    apply single_member; [exact Hsingle |].
    apply Hat; [|reflexivity].
    now apply resolver_registers.
Qed.

(** [A] and [C] both declare [B] at [^2.0.0]: one implied node. *)
Lemma implied_node_single_witness :
  nodesAt (Scanner.registerImpliedDependencies
             (Scanner.registerManifests Graph.newGraph
                [manifestA; manifestB; manifestC]))
          (identityOf "B" "^2.0.0")
  = [ {| Graph.identity := identityOf "B" "^2.0.0";
         Graph.kind := Graph.Implied |} ].
Proof.
  refine (proj2 (proj2 (implied_node_single installedWorld bowerOptions
                          (Scanner.registerManifests Graph.newGraph
                             [manifestA; manifestB; manifestC])
                          "B" "^2.0.0" _)) _ _).
  - vm_compute. reflexivity.
  - vm_compute. left. reflexivity.
  - vm_compute. intros [H|[]]. discriminate H.
Defined.

(* ================================================================== *)
(** * Further properties: utilities.ts                                 *)
(* ================================================================== *)

Lemma head_uniq (l : list string) : R.head (R.uniq l) = R.head l.
Proof. destruct l; reflexivity. Qed.

Lemma head_filter {A : Type} (f : A -> bool) (l : list A) :
  R.head (filter f l) = find f l.
Proof.
  induction l as [|x l IH]; cbn; [reflexivity |].
  destruct (f x); [reflexivity | exact IH].
Qed.

(** The head of an intersection: the first element of the shorter list
    that belongs to the longer one. *)
Lemma intersection_head (list1 list2 : list string) :
  R.head (R.intersection list1 list2)
  = if (List.length list2 <? List.length list1)%nat
    then find (fun x => R.containsString x list1) list2
    else find (fun x => R.containsString x list2) list1.
Proof.
  unfold R.intersection.
  destruct (List.length list2 <? List.length list1)%nat;
    now rewrite head_uniq, head_filter.
Qed.

(** The property read by [firstDefinedProperty] when the object has as
    many keys as there are names, or more: the first of the names that is
    a key of the object.  When the object has fewer keys than there are
    names it is the first key of the object that is one of the names,
    whatever the order of the names. *)
Theorem firstDefinedProperty_precedence
        (props : list string) (obj : IKeyValue JsValue) :
  (List.length props <= List.length (R.keys obj) ->
   Utilities.firstDefinedProperty props obj
   = R.prop (find (fun p => R.containsString p (R.keys obj)) props) obj)
  /\ (List.length (R.keys obj) < List.length props ->
      Utilities.firstDefinedProperty props obj
      = R.prop (find (fun k => R.containsString k props) (R.keys obj)) obj).
Proof.
  unfold Utilities.firstDefinedProperty. rewrite intersection_head.
  split; intro H.
  - destruct (Nat.ltb_spec (List.length (R.keys obj)) (List.length props));
      [lia | reflexivity].
  - destruct (Nat.ltb_spec (List.length (R.keys obj)) (List.length props));
      [reflexivity | lia].
Qed.

(** With three names and an object of two keys, the key that comes first
    in the object wins over the name that comes first in the list. *)
Lemma firstDefinedProperty_precedence_witness :
  Utilities.firstDefinedProperty ["a"; "b"; "c"]
    [("b", JsString "second name"); ("a", JsString "first name")]
  = JsString "second name".
Proof.
  refine (eq_trans
            (proj2 (firstDefinedProperty_precedence ["a"; "b"; "c"]
                      [("b", JsString "second name");
                       ("a", JsString "first name")]) _) _).
  - simpl. lia.
  - reflexivity.
Defined.

Lemma lookup_None_keys {T : Type} (k : string) (o : IKeyValue T) :
  lookup k o = None <-> ~ In k (R.keys o).
Proof.
  induction o as [|[k' v'] o IH]; simpl; [tauto |].
  destruct (String.eqb_spec k' k) as [->|Hne].
  - split; [discriminate | intro H; exfalso; apply H; now left].
  - rewrite IH. tauto.
Qed.

Lemma containsString_false (x : string) (l : list string) :
  ~ In x l -> R.containsString x l = false.
Proof.
  intro H. unfold R.containsString.
  destruct (existsb (String.eqb x) l) eqn:E; [|reflexivity].
  apply existsb_exists in E as (y & Hy & Heq).
  apply String.eqb_eq in Heq. now subst.
Qed.

Lemma containsString_lookup {T : Type} (k : string) (o : IKeyValue T) :
  R.containsString k (R.keys o)
  = match lookup k o with Some _ => true | None => false end.
Proof.
  destruct (lookup k o) as [v|] eqn:E.
  - apply containsString_In. eapply lookup_In_keys, E.
  - apply containsString_false. now apply lookup_None_keys.
Qed.

(** The version of a manifest: the value of [version] when the manifest
    has that field; otherwise the value of [_release]; and when it has
    neither, the value of the property named [undefined], which a
    manifest does not have as a rule, so that the version is
    [undefined]. *)
Theorem manifest_version (manifest : Filesystem.DependencyJson) :
  Graph.version (Scanner.getDependencyMetadata manifest)
  = match lookup "version" manifest with
    | Some v => v
    | None =>
        match lookup "_release" manifest with
        | Some v => v
        | None =>
            match lookup "undefined" manifest with
            | Some v => v
            | None => JsUndefined
            end
        end
    end.
Proof.
  unfold Scanner.getDependencyMetadata, Utilities.firstDefinedProperty.
  cbn [Graph.version]. rewrite intersection_head.
  destruct (Nat.ltb_spec (List.length (R.keys manifest))
                         (List.length ["version"; "_release"])) as [Hlt|_].
  - (* one key at most *)
    destruct manifest as [|[k v] [|kv manifest]]; cbn in Hlt; try lia.
    + reflexivity.
    + cbn [R.keys map fst find R.containsString existsb lookup].
      destruct (String.eqb_spec k "version") as [->|Hv]; [reflexivity |].
      destruct (String.eqb_spec k "_release") as [->|Hr]; [reflexivity |].
      cbn [orb find]. unfold R.prop, R.toPropertyKey. cbn [lookup].
      reflexivity.
  - cbn [find]. rewrite !containsString_lookup. unfold R.prop.
    destruct (lookup "version" manifest) as [v|] eqn:Ev.
    + cbn [R.toPropertyKey]. now rewrite Ev.
    + destruct (lookup "_release" manifest) as [r|] eqn:Er.
      * cbn [R.toPropertyKey]. now rewrite Er.
      * reflexivity.
Qed.

Section ObjectFacts.

Context {T : Type}.

Lemma hasKey_In (k : string) (o : IKeyValue T) :
  R.hasKey k o = true <-> In k (R.keys o).
Proof.
  induction o as [|[k' v'] o IH]; cbn; [split; [discriminate | tauto] |].
  rewrite orb_true_iff, IH, String.eqb_eq. tauto.
Qed.

Lemma keys_setValue (k : string) (v : T) (o : IKeyValue T) :
  R.keys (R.setValue k v o) = R.keys o.
Proof.
  induction o as [|[k' v'] o IH]; cbn; [reflexivity |].
  destruct (String.eqb k' k); cbn; [reflexivity | now f_equal].
Qed.

Lemma lookup_setValue (k k' : string) (v : T) (o : IKeyValue T) :
  lookup k' (R.setValue k v o)
  = if String.eqb k k' then
      match lookup k o with Some _ => Some v | None => None end
    else lookup k' o.
Proof.
  induction o as [|[x y] o IH]; cbn.
  - now destruct (String.eqb k k').
  - destruct (String.eqb_spec x k) as [->|Hx]; cbn.
    + destruct (String.eqb_spec k k') as [->|Hk]; [reflexivity |].
      reflexivity.
    + rewrite IH. destruct (String.eqb_spec k k') as [<-|Hk].
      * now rewrite (proj2 (String.eqb_neq x k) Hx).
      * reflexivity.
Qed.

Lemma keys_insertIndex (n : N) (k x : string) (v : T) (o : IKeyValue T) :
  In x (R.keys (R.insertIndex n k v o)) <-> x = k \/ In x (R.keys o).
Proof.
  unfold R.keys.
  induction o as [|[k' v'] o IH]; cbn [R.insertIndex map fst In].
  - intuition congruence.
  - destruct (R.arrayIndex k') as [m|]; [destruct (m <? n)%N |];
      cbn [map fst In]; rewrite ?IH; intuition congruence.
Qed.

Lemma NoDup_insertIndex (n : N) (k : string) (v : T) (o : IKeyValue T) :
  ~ In k (R.keys o) -> NoDup (R.keys o) ->
  NoDup (R.keys (R.insertIndex n k v o)).
Proof.
  induction o as [|[k' v'] o IH]; intros Hk Hd.
  - cbn. constructor; [tauto | constructor].
  - change (R.keys ((k', v') :: o)) with (k' :: R.keys o) in Hk, Hd.
    inversion Hd as [|? ? Hk' Hd']; subst.
    assert (Hgoal : NoDup (k :: k' :: R.keys o)).
    { constructor; [exact Hk | exact Hd]. }
    cbn [R.insertIndex].
    destruct (R.arrayIndex k') as [m|]; [destruct (m <? n)%N |];
      try exact Hgoal.
    change (NoDup (k' :: R.keys (R.insertIndex n k v o))).
    constructor.
    + rewrite keys_insertIndex. cbn in Hk. intuition congruence.
    + apply IH; [cbn in Hk; tauto | exact Hd'].
Qed.

Lemma lookup_insertIndex (n : N) (k k' : string) (v : T) (o : IKeyValue T) :
  ~ In k (R.keys o) ->
  lookup k' (R.insertIndex n k v o)
  = if String.eqb k k' then Some v else lookup k' o.
Proof.
  induction o as [|[x y] o IH]; cbn; intro Hk.
  - reflexivity.
  - assert (Hx : x <> k) by tauto.
    destruct (R.arrayIndex x) as [m|]; [destruct (m <? n)%N |]; cbn;
      try reflexivity.
    rewrite IH by tauto.
    destruct (String.eqb_spec k k') as [<-|_]; [|reflexivity].
    now rewrite (proj2 (String.eqb_neq x k) Hx).
Qed.

Lemma lookup_snoc (k k' : string) (v : T) (o : IKeyValue T) :
  ~ In k (R.keys o) ->
  lookup k' (o ++ [(k, v)]) = if String.eqb k k' then Some v else lookup k' o.
Proof.
  induction o as [|[x y] o IH]; cbn; intro Hk; [reflexivity |].
  assert (Hx : x <> k) by tauto.
  rewrite IH by tauto.
  destruct (String.eqb_spec k k') as [<-|_]; [|reflexivity].
  now rewrite (proj2 (String.eqb_neq x k) Hx).
Qed.

(** Reading a property after an assignment. *)
Lemma lookup_assign (k k' : string) (v : T) (o : IKeyValue T) :
  lookup k' (R.assign k v o)
  = if String.eqb k "__proto__" then lookup k' o
    else if String.eqb k k' then Some v else lookup k' o.
Proof.
  unfold R.assign. destruct (String.eqb k "__proto__"); [reflexivity |].
  cbv iota. destruct (R.hasKey k o) eqn:E.
  - rewrite lookup_setValue. destruct (String.eqb k k'); [|reflexivity].
    apply hasKey_In in E. destruct (lookup k o) eqn:El; [reflexivity |].
    now apply lookup_None_keys in El.
  - assert (Hk : ~ In k (R.keys o)).
    { intro H. apply hasKey_In in H. congruence. }
    destruct (R.arrayIndex k);
      [now apply lookup_insertIndex | now apply lookup_snoc].
Qed.

Lemma NoDup_assign (k : string) (v : T) (o : IKeyValue T) :
  NoDup (R.keys o) -> NoDup (R.keys (R.assign k v o)).
Proof.
  intro Hd. unfold R.assign.
  destruct (String.eqb k "__proto__"); [exact Hd |].
  destruct (R.hasKey k o) eqn:E.
  - now rewrite keys_setValue.
  - assert (Hk : ~ In k (R.keys o)).
    { intro H. apply hasKey_In in H. congruence. }
    destruct (R.arrayIndex k); [now apply NoDup_insertIndex |].
    unfold R.keys. rewrite map_app. cbn.
    apply NoDup_app; [exact Hd | constructor; [tauto | constructor] |].
    intros x Hx [<-|[]]. contradiction.
Qed.

End ObjectFacts.

(** The object [toObjectBy] builds from an array of strings has one
    property for each string of the array, without repetition, and
    nothing else; the value of the property named by a string is the
    method applied to that string.  The string [__proto__] is the
    exception: it names no property of the object. *)
Theorem toObjectBy_properties {U : Type} (method : string -> U)
        (arr : list string) :
  NoDup (R.keys (Utilities.toObjectBy method arr))
  /\ (forall k, In k arr -> k <> "__proto__" ->
        lookup k (Utilities.toObjectBy method arr) = Some (method k))
  /\ (forall k, ~ In k arr \/ k = "__proto__" ->
        lookup k (Utilities.toObjectBy method arr) = None).
Proof.
  unfold Utilities.toObjectBy, R.zipObj. rewrite map_id.
  assert (Hgen : forall (l : list string) (out : IKeyValue U),
             NoDup (R.keys out) ->
             let obj := fold_left (fun out '(k, v) => R.assign k v out)
                                  (combine l (map method l)) out in
             NoDup (R.keys obj)
             /\ forall k, lookup k obj
                          = if R.containsString k l
                               && negb (String.eqb k "__proto__")
                            then Some (method k)
                            else lookup k out).
  { induction l as [|x l IH]; intros out Hd; cbn [combine map fold_left].
    - now split.
    - destruct (IH (R.assign x (method x) out) (NoDup_assign _ _ _ Hd))
        as [Hd' Hl].
      split; [exact Hd' |]. intro k. rewrite Hl, lookup_assign.
      change (R.containsString k (x :: l))
        with (String.eqb k x || R.containsString k l).
      rewrite (String.eqb_sym x k).
      destruct (String.eqb_spec k x) as [->|Hkx].
      + destruct (String.eqb x "__proto__"), (R.containsString x l);
          reflexivity.
      + destruct (R.containsString k l), (String.eqb k "__proto__"),
          (String.eqb x "__proto__"); reflexivity. }
  destruct (Hgen arr [] (NoDup_nil _)) as [Hd Hl].
  split; [exact Hd | split]; intros k Hk; rewrite Hl.
  - intro Hproto. apply String.eqb_neq in Hproto.
    now rewrite containsString_In, Hproto.
  - destruct Hk as [Hk | ->].
    + now rewrite containsString_false.
    + now rewrite andb_false_r.
Qed.

Lemma toObjectBy_properties_witness :
  lookup "lodash"
         (Utilities.toObjectBy String.length ["left-pad"; "lodash"; "left-pad"])
  = Some 6
  /\ lookup "polymer"
            (Utilities.toObjectBy String.length
               ["left-pad"; "lodash"; "left-pad"])
     = None.
Proof.
  destruct (toObjectBy_properties String.length
              ["left-pad"; "lodash"; "left-pad"]) as (_ & Hin & Hout).
  split.
  - apply (Hin "lodash"); [simpl; auto | discriminate].
  - apply (Hout "polymer"). left. simpl.
    intros [H|[H|[H|[]]]]; discriminate H.
Defined.

(* ================================================================== *)
(** * Further properties: the matcher and pruneVersionString           *)
(* ================================================================== *)

(** A successful run of the matcher consumes a prefix of the input, no
    longer than the width of the pattern, and hands the rest to the
    continuation. *)
Lemma run_inv (r : Regex.regex) :
  forall (i : nat) (s : string) (k : nat -> string -> option nat) (e : nat),
    Regex.run r i s k = Some e ->
    exists pre t,
      s = (pre ++ t)%string
      /\ String.length pre <= Regex.maxWidth r
      /\ k (i + String.length pre) t = Some e.
Proof.
  induction r as [p|r1 IH1 r2 IH2|r1 IH1 r2 IH2|r1 IH1| |];
    intros i s k e H; cbn [Regex.run Regex.maxWidth] in *.
  - destruct s as [|c s']; [discriminate |].
    destruct (p c); [|discriminate].
    exists (String c ""), s'. cbn. rewrite Nat.add_1_r. auto.
  - apply IH1 in H as (pre1 & t1 & -> & L1 & H).
    apply IH2 in H as (pre2 & t2 & -> & L2 & H).
    exists (pre1 ++ pre2)%string, t2.
    rewrite append_assoc, length_append, Nat.add_assoc.
    repeat split; [lia | exact H].
  - destruct (Regex.run r1 i s k) as [e1|] eqn:E1.
    + injection H as ->. apply IH1 in E1 as (pre & t & -> & L & H).
      exists pre, t. repeat split; [lia | exact H].
    + apply IH2 in H as (pre & t & -> & L & H).
      exists pre, t. repeat split; [lia | exact H].
  - destruct (Regex.run r1 i s _) as [e1|] eqn:E1.
    + injection H as ->. apply IH1 in E1 as (pre & t & -> & L & H).
      destruct (i + String.length pre =? i)%nat; [discriminate |].
      exists pre, t. auto.
    + exists "", s. cbn. rewrite Nat.add_0_r. repeat split; [lia | exact H].
  - destruct (i =? 0)%nat; [|discriminate].
    exists "", s. cbn. rewrite Nat.add_0_r. auto.
  - destruct s; [|discriminate].
    exists "", "". cbn. rewrite Nat.add_0_r. auto.
Qed.

(** Where a search that succeeds found its match. *)
Lemma search_inv (r : Regex.regex) (s : string) :
  forall (i b e : nat),
    Regex.search r i s = Some (b, e) ->
    exists front rest,
      s = (front ++ rest)%string
      /\ b = i + String.length front
      /\ Regex.matchAt r b rest = Some e.
Proof.
  induction s as [|c s IH]; intros i b e H; cbn [Regex.search] in H.
  - destruct (Regex.matchAt r i "") as [e'|] eqn:E; [|discriminate].
    injection H as <- <-. exists "", "". cbn. rewrite Nat.add_0_r. auto.
  - destruct (Regex.matchAt r i (String c s)) as [e'|] eqn:E.
    + injection H as <- <-. exists "", (String c s).
      cbn. rewrite Nat.add_0_r. auto.
    + apply IH in H as (front & rest & -> & -> & H).
      exists (String c front), rest. cbn.
      rewrite Nat.add_succ_r. auto.
Qed.

(** A search succeeds as soon as some position matches. *)
Lemma search_finds (r : Regex.regex) (front rest : string) :
  forall (i e : nat),
    Regex.matchAt r (i + String.length front) rest = Some e ->
    exists b e', Regex.search r i (front ++ rest) = Some (b, e').
Proof.
  induction front as [|c front IH]; intros i e H; cbn [append String.length] in *.
  - rewrite Nat.add_0_r in H.
    destruct rest; cbn [Regex.search]; rewrite H; eauto.
  - cbn [Regex.search].
    destruct (Regex.matchAt r i (String c (front ++ rest))); [eauto |].
    apply (IH (S i) e). now rewrite Nat.add_succ_r in H.
Qed.

Lemma substring_middle (a b c : string) :
  String.substring (String.length a) (String.length b) (a ++ b ++ c) = b.
Proof.
  induction a as [|x a IH]; [|exact IH].
  cbn [String.length append]. revert c.
  induction b as [|y b IHb]; intro c; cbn.
  - now destruct c.
  - now rewrite IHb.
Qed.

Lemma substring_suffix (a b : string) :
  String.substring (String.length a) (String.length b) (a ++ b) = b.
Proof.
  rewrite <- (append_nil_r b) at 2. apply substring_middle.
Qed.

Lemma run_Alt (r1 r2 : Regex.regex) (i : nat) (s : string)
      (k : nat -> string -> option nat) :
  Regex.run (Regex.Alt r1 r2) i s k
  = match Regex.run r1 i s k with
    | Some e => Some e
    | None => Regex.run r2 i s k
    end.
Proof. reflexivity. Qed.

Lemma run_Seq (r1 r2 : Regex.regex) (i : nat) (s : string)
      (k : nat -> string -> option nat) :
  Regex.run (Regex.Seq r1 r2) i s k
  = Regex.run r1 i s (fun j t => Regex.run r2 j t k).
Proof. reflexivity. Qed.

(** What [pruneVersionString] returns is the asterisk of a version that
    holds one, or the end of the version: a range operator or nothing,
    two components of a digit and a character at most, and a digit. *)
Lemma pruneVersionString_inv (version whole : string) :
  Utilities.pruneVersionString version = Returned whole ->
  (whole = "*" /\ hasAsterisk version)
  \/ (exists front operator components c,
         version = (front ++ whole)%string
         /\ whole = (operator ++ components ++ String c "")%string
         /\ String.length operator <= 2
         /\ String.length components <= 4
         /\ Regex.isDigit c = true).
Proof.
  unfold Utilities.pruneVersionString, Regex.exec.
  destruct (Regex.search Utilities.versionPattern 0 version)
    as [[b e]|] eqn:E; [|discriminate].
  intro H. injection H as <-.
  apply search_inv in E as (front & rest & -> & -> & H).
  cbn [Nat.add] in *. unfold Regex.matchAt in H.
  unfold Utilities.versionPattern in H. cbv zeta in H.
  rewrite run_Alt in H.
  destruct (Regex.run (Regex.lit "*") _ rest _) as [e1|] eqn:E1.
  - (* the asterisk *)
    left. injection H as ->.
    unfold Regex.lit in E1. cbn [Regex.run] in E1.
    destruct rest as [|c rest']; [discriminate |].
    destruct (Ascii.eqb_spec "*" c) as [<-|_]; [|discriminate].
    injection E1 as <-.
    replace (S (String.length front) - String.length front) with 1 by lia.
    split; [|now exists front, rest'].
    apply (substring_middle front "*" rest').
  - (* the end of the version *)
    clear E1. right.
    rewrite run_Seq in H.
    apply run_inv in H as (operator & t1 & -> & L1 & H). cbv beta in H.
    rewrite run_Seq in H.
    apply run_inv in H as (components & t2 & -> & L2 & H). cbv beta in H.
    unfold Regex.digit in H. cbn [Regex.run] in H.
    destruct t2 as [|c t3]; [discriminate |].
    destruct (Regex.isDigit c) eqn:Hc; [|discriminate].
    destruct t3; [|discriminate].
    injection H as <-.
    change (String.length operator <= 2) in L1.
    change (String.length components <= 4) in L2.
    set (whole := (operator ++ components ++ String c "")%string).
    assert (Hlen : String.length whole
                   = String.length operator + String.length components + 1).
    { unfold whole. rewrite !length_append. cbn. lia. }
    replace (S (String.length front + String.length operator
                + String.length components) - String.length front)
      with (String.length whole) by lia.
    rewrite substring_suffix.
    exists front, operator, components, c. auto.
Qed.

(** A version that ends with a digit matches at its last character. *)
Lemma versionPattern_digit (n : nat) (c : ascii) :
  Regex.isDigit c = true ->
  Regex.matchAt Utilities.versionPattern n (String c "") = Some (S n).
Proof.
  intro Hc.
  assert (Hne : forall d, Regex.isDigit d = false -> Ascii.eqb d c = false).
  { intros d Hd. destruct (Ascii.eqb_spec d c) as [->|_]; congruence. }
  unfold Regex.matchAt, Utilities.versionPattern, Regex.lit, Regex.digit,
    Regex.dot.
  cbn [Regex.run].
  rewrite !Hne by reflexivity. rewrite Hc, Nat.eqb_refl. reflexivity.
Qed.

(** [pruneVersionString] returns for the versions that hold an asterisk
    or end with a digit, and for no other: on any other text, such as
    the empty text, [latest] or [1.2.x], the pattern does not match and
    reading the match is a [TypeError]. *)
Theorem pruneVersionString_returns (version : string) :
  (hasAsterisk version \/ endsWithDigit version ->
   exists whole, Utilities.pruneVersionString version = Returned whole)
  /\ (~ (hasAsterisk version \/ endsWithDigit version) ->
      exists message,
        Utilities.pruneVersionString version = Raised (TypeError message)).
Proof.
  split.
  - intro Hshape.
    assert (Hfound : exists b e,
               Regex.search Utilities.versionPattern 0 version = Some (b, e)).
    { destruct Hshape as [(front & rest & ->)|(front & c & -> & Hc)].
      - apply (search_finds _ front ("*" ++ rest) 0 (S (String.length front))).
        reflexivity.
      - apply (search_finds _ front (String c "") 0 (S (String.length front))).
        now apply versionPattern_digit. }
    destruct Hfound as (b & e & Hfound).
    unfold Utilities.pruneVersionString, Regex.exec. rewrite Hfound. eauto.
  - intro Hshape.
    destruct (Utilities.pruneVersionString version) as [whole|err] eqn:E.
    + exfalso. apply Hshape.
      apply pruneVersionString_inv in E
        as [[_ Hstar]|(front & operator & components & c
                       & -> & -> & _ & _ & Hc)].
      * now left.
      * right. exists (front ++ operator ++ components)%string, c.
        now rewrite !append_assoc.
    + unfold Utilities.pruneVersionString in E.
      destruct (Regex.exec Utilities.versionPattern version); [discriminate |].
      injection E as <-. eauto.
Qed.

Lemma pruneVersionString_returns_witness :
  (exists whole, Utilities.pruneVersionString "1.2.3" = Returned whole)
  /\ (exists message,
        Utilities.pruneVersionString "latest" = Raised (TypeError message)).
Proof.
  split.
  - apply (proj1 (pruneVersionString_returns "1.2.3")).
    right. exists "1.2.", "3"%char. split; reflexivity.
  - apply (proj2 (pruneVersionString_returns "latest")).
    intros [(front & rest & H)|(front & c & H & Hc)].
    + assert (Hin : JsString.includes "*" "latest" = true).
      { rewrite H. unfold JsString.includes.
        destruct (splitAtFirst_first "*" front rest) as (p & q & -> & _).
        reflexivity. }
      discriminate Hin.
    + assert (Hlast : String.get 5 "latest" = Some c).
      { rewrite H.
        assert (Hl : String.length front = 5).
        { apply (f_equal String.length) in H.
          rewrite length_append in H. cbn in H. lia. }
        clear H. revert Hl. generalize 5.
        induction front as [|x front IH]; intros n Hl; cbn in *.
        - now subst n.
        - destruct n; [discriminate |]. apply IH. lia. }
      cbn in Hlast. injection Hlast as <-. discriminate Hc.
Defined.

(** The text [pruneVersionString] returns is the asterisk, and then the
    version holds one, or it is the end of the version, seven characters
    at most, the last one a digit.  So a component of two digits is cut:
    of [1.10.3] the end [0.3] is what fits the pattern. *)
Theorem pruneVersionString_result (version whole : string) :
  Utilities.pruneVersionString version = Returned whole ->
  (whole = "*" /\ hasAsterisk version)
  \/ (exists front,
         version = (front ++ whole)%string
         /\ endsWithDigit whole
         /\ String.length whole <= 7).
Proof.
  intro Hreturned.
  apply pruneVersionString_inv in Hreturned
    as [Hstar|(front & operator & components & c
               & Hversion & Hwhole & Hoperator & Hcomponents & Hc)].
  - now left.
  - right. exists front. split; [exact Hversion |]. split.
    + exists (operator ++ components)%string, c.
      now rewrite append_assoc.
    + rewrite Hwhole, !length_append. cbn. lia.
Qed.

Lemma pruneVersionString_result_witness :
  ("0.3" = "*" /\ hasAsterisk "1.10.3")
  \/ (exists front,
         "1.10.3" = (front ++ "0.3")%string
         /\ endsWithDigit "0.3"
         /\ String.length "0.3" <= 7).
Proof.
  apply (pruneVersionString_result "1.10.3" "0.3"). vm_compute. reflexivity.
Defined.

(* ================================================================== *)
(** * Further properties: the listing of the installed dependencies    *)
(* ================================================================== *)

(** The run of a filter whose calls answer for the first elements and
    fail for the next one stops there. *)
Lemma filterIO_fails {A : Type} (event : A -> Event)
      (answer : A -> Outcome bool) (front : list A) (x : A) (rest : list A)
      (e : JsError) :
  (forall y, In y front -> exists b, answer y = Returned b) ->
  answer x = Raised e ->
  forall tr,
    filterIO (fun y => call (event y) (answer y)) (front ++ x :: rest) tr
    = (Raised e, (tr ++ map event front ++ [event x])%list).
Proof.
  induction front as [|y front IH]; intros Hfront Hx tr.
  - cbn [app filterIO map]. unfold bind at 1. unfold call at 1.
    now rewrite Hx.
  - cbn [app filterIO map]. unfold bind at 1. unfold call at 1.
    destruct (Hfront y (or_introl eq_refl)) as [b ->].
    unfold bind at 1.
    rewrite (IH (fun z Hz => Hfront z (or_intror Hz)) Hx).
    now rewrite <- app_assoc.
Qed.

(** The calls of a filter whose calls all answer: one for each element,
    in order. *)
Lemma filterIO_trace {A : Type} (event : A -> Event)
      (answer : A -> Outcome bool) (l : list A) :
  (forall y, In y l -> exists b, answer y = Returned b) ->
  forall tr,
    snd (filterIO (fun y => call (event y) (answer y)) l tr)
    = (tr ++ map event l)%list.
Proof.
  induction l as [|y l IH]; intros Hl tr.
  - cbn. now rewrite app_nil_r.
  - cbn [filterIO map]. unfold bind at 1. unfold call at 1.
    destruct (Hl y (or_introl eq_refl)) as [b ->].
    unfold bind at 1.
    specialize (IH (fun z Hz => Hl z (or_intror Hz)) (tr ++ [event y])%list).
    destruct (filterIO _ l _) as [[kept|e] tr']; cbn [snd] in *; subst tr';
      now rewrite <- app_assoc.
Qed.

(** The calls of a listing that succeeds: the directory is read, then
    every child is examined, in the order of the listing, the hidden
    ones as well as the others, since the names are filtered after the
    directories. *)
Theorem listing_examines_every_child
        (w : World) (opts : Filesystem.IProjectOptions)
        (folder : string) (children : list string) :
  (Filesystem.packageManager opts = JsString "bower"
   /\ folder = "bower_components")
  \/ (Filesystem.packageManager opts = JsString "npm"
      /\ folder = "node_modules") ->
  let directory := Path.resolve (cwd w) [Filesystem.projectPath opts; folder] in
  readdir w directory = Returned children ->
  (forall child, In child children ->
     exists b, statIsDirectory w (Path.resolve (cwd w) [directory; child])
               = Returned b) ->
  snd (run (async (Filesystem.listInstalledDependencies w opts)))
  = ReaddirCall directory
    :: map (fun child =>
              StatSyncCall (Path.resolve (cwd w) [directory; child]))
           children.
Proof.
  intros Hkind directory Hreaddir Hstat.
  assert (Hrun : snd (run (let* paths :=
                             Filesystem.listDirectoryContents w directory in
                           Filesystem.extractFolderNamesSync w paths))
                 = ReaddirCall directory
                   :: map (fun child =>
                             StatSyncCall
                               (Path.resolve (cwd w) [directory; child]))
                          children).
  { unfold run, Filesystem.listDirectoryContents. unfold bind at 1 2.
    unfold call at 1. rewrite Hreaddir. unfold ret at 1.
    unfold Filesystem.extractFolderNamesSync, Filesystem.extractFoldersSync.
    unfold bind at 1. unfold Filesystem.resolve.
    pose proof (filterIO_trace StatSyncCall (statIsDirectory w)
                  (map (fun child => Path.resolve (cwd w) [directory; child])
                       children)) as Htrace.
    rewrite map_map in Htrace.
    assert (Hall : forall y,
               In y (map (fun child =>
                            Path.resolve (cwd w) [directory; child]) children) ->
               exists b, statIsDirectory w y = Returned b).
    { intros y Hy. apply in_map_iff in Hy as (c & <- & Hc). now apply Hstat. }
    specialize (Htrace Hall ([] ++ [ReaddirCall directory])%list).
    destruct (filterIO _ _ _) as [[folders|e] tr']; cbn [snd] in *;
      subst tr'; reflexivity. }
  unfold Filesystem.listInstalledDependencies.
  destruct Hkind as [[-> ->]|[-> ->]];
    cbn [Filesystem.isCase String.eqb Ascii.eqb Bool.eqb async]; exact Hrun.
Qed.

Lemma listing_examines_every_child_witness :
  snd (run (async (Filesystem.listInstalledDependencies
                     (bowerWorld [".git"; "lodash"] []) bowerOptions)))
  = [ReaddirCall "/proj/bower_components";
     StatSyncCall "/proj/bower_components/.git";
     StatSyncCall "/proj/bower_components/lodash"].
Proof.
  apply (listing_examines_every_child (bowerWorld [".git"; "lodash"] [])
           bowerOptions "bower_components" [".git"; "lodash"]).
  - left. split; reflexivity.
  - reflexivity.
  - intros child _. exists true. reflexivity.
Defined.

(** The failures of a listing.  When the directory cannot be read the
    listing fails with the error of [readdir] and nothing else is
    called.  When [statSync] throws for a child, the listing fails with
    that error, whether the child is a hidden entry or not, and the
    children after it are not examined. *)
Theorem listing_failures
        (w : World) (opts : Filesystem.IProjectOptions)
        (folder : string) (e : JsError) :
  (Filesystem.packageManager opts = JsString "bower"
   /\ folder = "bower_components")
  \/ (Filesystem.packageManager opts = JsString "npm"
      /\ folder = "node_modules") ->
  let directory := Path.resolve (cwd w) [Filesystem.projectPath opts; folder] in
  let examined := fun child =>
    StatSyncCall (Path.resolve (cwd w) [directory; child]) in
  (readdir w directory = Raised e ->
   run (async (Filesystem.listInstalledDependencies w opts))
   = (Raised e, [ReaddirCall directory]))
  /\ (forall front child rest,
        readdir w directory = Returned (front ++ child :: rest)%list ->
        (forall c, In c front ->
           exists b, statIsDirectory w (Path.resolve (cwd w) [directory; c])
                     = Returned b) ->
        statIsDirectory w (Path.resolve (cwd w) [directory; child]) = Raised e ->
        run (async (Filesystem.listInstalledDependencies w opts))
        = (Raised e,
           ReaddirCall directory :: (map examined front ++ [examined child])%list)).
Proof.
  intros Hkind directory examined.
  assert (Hrun : async (Filesystem.listInstalledDependencies w opts)
                 = (let* paths :=
                      Filesystem.listDirectoryContents w directory in
                    Filesystem.extractFolderNamesSync w paths)).
  { unfold Filesystem.listInstalledDependencies.
    destruct Hkind as [[-> ->]|[-> ->]]; reflexivity. }
  rewrite Hrun. split.
  - intro Hreaddir.
    unfold run, Filesystem.listDirectoryContents. unfold bind at 1 2.
    unfold call at 1. now rewrite Hreaddir.
  - intros front child rest Hreaddir Hfront Hchild.
    unfold run, Filesystem.listDirectoryContents. unfold bind at 1 2.
    unfold call at 1. rewrite Hreaddir. unfold ret at 1.
    unfold Filesystem.extractFolderNamesSync, Filesystem.extractFoldersSync.
    unfold bind at 1. unfold Filesystem.resolve.
    rewrite map_app. cbn [map].
    rewrite (filterIO_fails StatSyncCall (statIsDirectory w) _ _ _ e).
    + now rewrite map_map.
    + intros y Hy. apply in_map_iff in Hy as (c & <- & Hc). now apply Hfront.
    + exact Hchild.
Qed.

(** A hidden entry that cannot be examined makes the listing fail. *)
Lemma listing_failures_witness :
  run (async (Filesystem.listInstalledDependencies
                (brokenWorld ["lodash"; ".cache"; "left-pad"]
                             "/proj/bower_components/.cache")
                bowerOptions))
  = (ENOENT "/proj/bower_components/.cache",
     [ReaddirCall "/proj/bower_components";
      StatSyncCall "/proj/bower_components/lodash";
      StatSyncCall "/proj/bower_components/.cache"]).
Proof.
  refine (proj2 (listing_failures
                   (brokenWorld ["lodash"; ".cache"; "left-pad"]
                                "/proj/bower_components/.cache")
                   bowerOptions "bower_components"
                   (SystemError "ENOENT" "/proj/bower_components/.cache") _)
                ["lodash"] ".cache" ["left-pad"] _ _ _).
  - left. split; reflexivity.
  - reflexivity.
  - intros c [<-|[]]. exists true. reflexivity.
  - reflexivity.
Defined.

(** A text without separator, or the text after its last separator. *)
Lemma last_separator (path : string) :
  noSeparator path = true
  \/ exists front ending,
      path = (front ++ String Path.sep ending)%string
      /\ noSeparator ending = true.
Proof.
  induction path as [|c path IH]; [now left |].
  destruct IH as [Hns|(front & ending & -> & Hns)].
  - destruct (Ascii.eqb_spec c Path.sep) as [->|Hc].
    + right. now exists "", path.
    + left. cbn. rewrite Hns.
      now rewrite (proj2 (Ascii.eqb_neq c Path.sep) Hc).
  - right. now exists (String c front), ending.
Qed.

(** The ending extracted from a path is what follows its last separator,
    the whole path when it has none: the ending holds no separator, and
    the path is the ending after nothing or after a text that ends with
    a separator.  A path that ends with a separator has the empty
    ending. *)
Theorem path_endings (paths : list string) :
  Forall2
    (fun path ending =>
       noSeparator ending = true
       /\ exists front,
           path = (front ++ ending)%string
           /\ (front = ""
               \/ exists before, front = (before ++ "/")%string))
    paths (Filesystem.extractPathEndingsSync paths).
Proof.
  unfold Filesystem.extractPathEndingsSync.
  induction paths as [|path paths IH]; cbn [map]; constructor; [|exact IH].
  destruct (last_separator path) as [Hns|(front & ending & -> & Hns)].
  - rewrite (split_noSeparator _ Hns). cbn. split; [exact Hns |].
    exists "". split; [reflexivity | now left].
  - rewrite split_append_sep, (split_noSeparator _ Hns), last_last.
    split; [exact Hns |].
    exists (front ++ "/")%string. split.
    + now rewrite append_assoc.
    + right. now exists front.
Qed.

(* ================================================================== *)
(** * Further properties: the inspector                                *)
(* ================================================================== *)

Lemma inspectElement_push (w : World) (opts : Inspection.IInspectionOptions)
      (tagName attributeName : string)
      (declarations : list Inspection.IImportDeclaration)
      (link : Cheerio.Element) :
  Inspection.inspectElement w opts tagName attributeName declarations link
  = (declarations
       ++ declarationsOfElement w opts tagName attributeName link)%list.
Proof.
  unfold Inspection.inspectElement, declarationsOfElement.
  destruct (lookup attributeName (Cheerio.attribs link)) as [v|];
    [|now rewrite app_nil_r].
  destruct (String.eqb v ""); [now rewrite app_nil_r | reflexivity].
Qed.

Lemma inspectElements_push (w : World) (opts : Inspection.IInspectionOptions)
      (tagName attributeName : string) (elements : list Cheerio.Element)
      (declarations : list Inspection.IImportDeclaration) :
  fold_left (Inspection.inspectElement w opts tagName attributeName)
            elements declarations
  = (declarations
       ++ flat_map (declarationsOfElement w opts tagName attributeName)
                   elements)%list.
Proof.
  revert declarations.
  induction elements as [|link elements IH]; intro declarations; cbn.
  - now rewrite app_nil_r.
  - now rewrite IH, inspectElement_push, app_assoc.
Qed.

(** The import declarations of a document, in their order, for import
    tags whose keys are plain tag names and whose attribute names are
    not inherited names: the entries of the import tags are taken in
    turn, and for each of them the elements of its tag in the order of
    the document; an element contributes one declaration, or none when
    the attribute of the entry is missing or empty.  So the declarations
    follow the order of the import tags before that of the document. *)
Theorem declarations_in_order
        (w : World) (opts : Inspection.IInspectionOptions)
        (doc : Cheerio.Document) :
  plainImportTags (Inspection.importTags opts) ->
  Inspection.inspectDocument w opts doc
  = flat_map
      (fun '(tagName, attributeName) =>
         flat_map (declarationsOfElement w opts tagName attributeName)
                  (Cheerio.select tagName doc))
      (Inspection.importTags opts).
Proof.
  unfold Inspection.inspectDocument, R.toPairs.
  assert (Hgen : forall tags declarations,
             fold_left
               (fun declarations '(tagName, attributeName) =>
                  fold_left
                    (Inspection.inspectElement w opts tagName attributeName)
                    (Cheerio.select tagName doc) declarations)
               tags declarations
             = (declarations
                  ++ flat_map
                       (fun '(tagName, attributeName) =>
                          flat_map
                            (declarationsOfElement w opts tagName attributeName)
                            (Cheerio.select tagName doc))
                       tags)%list).
  { induction tags as [|[tagName attributeName] tags IH];
      intro declarations; cbn [fold_left flat_map].
    - now rewrite app_nil_r.
    - now rewrite IH, inspectElements_push, app_assoc. }
  intros _. apply (Hgen _ []).
Qed.

Lemma declarations_in_order_witness :
  Inspection.inspectDocument publicWorld publicOptions [xElemLink; xElemLink]
  = flat_map
      (fun '(tagName, attributeName) =>
         flat_map
           (declarationsOfElement publicWorld publicOptions
                                  tagName attributeName)
           (Cheerio.select tagName [xElemLink; xElemLink]))
      (Inspection.importTags publicOptions).
Proof.
  apply (declarations_in_order publicWorld publicOptions
           [xElemLink; xElemLink]).
  intros tagName attributeName [H|[]]. injection H as <- <-.
  split; reflexivity.
Defined.

(** An analysis of a file that exists: when the file cannot be read, the
    analysis fails with the error of [readFile] and nothing is parsed;
    when it can, and the import tags have plain tag names for keys and
    no inherited name for attribute, the file is tested, read and parsed
    once, in that order, and the metadata carries the path that was
    given. *)
Theorem analysis_of_existing_file
        (w : World) (opts : Inspection.IInspectionOptions) (filePath : string) :
  existsSync w filePath = true ->
  (forall e, readFile w filePath = Raised e ->
     run (Inspection.getMetadataForFile w opts filePath)
     = (Raised e, [ExistsSyncCall filePath; ReadFileCall filePath]))
  /\ (forall contents,
        readFile w filePath = Returned contents ->
        plainImportTags (Inspection.importTags opts) ->
        run (Inspection.getMetadataForFile w opts filePath)
        = (Returned
             {| Inspection.filePath := filePath;
                Inspection.importDeclarations :=
                  Inspection.inspectDocument w opts (cheerioLoad w contents) |},
           [ExistsSyncCall filePath; ReadFileCall filePath;
            CheerioLoadCall contents])).
Proof.
  intro Hexists.
  unfold Inspection.getMetadataForFile, Inspection.readFileAtPath,
    run, bind, call, raise, ret.
  cbn [app]. rewrite Hexists. cbn [negb].
  split; [intros e Hread | intros contents Hread _]; now rewrite Hread.
Qed.

Lemma analysis_of_existing_file_witness :
  run (Inspection.getMetadataForFile publicWorld publicOptions
         "/proj/build/public/index.html")
  = (Returned
       {| Inspection.filePath := "/proj/build/public/index.html";
          Inspection.importDeclarations :=
            Inspection.inspectDocument publicWorld publicOptions
              (cheerioLoad publicWorld xElemMarkup) |},
     [ExistsSyncCall "/proj/build/public/index.html";
      ReadFileCall "/proj/build/public/index.html";
      CheerioLoadCall xElemMarkup]).
Proof.
  apply (proj2 (analysis_of_existing_file publicWorld publicOptions
                  "/proj/build/public/index.html" eq_refl)).
  - reflexivity.
  - intros tagName attributeName [H|[]]. injection H as <- <-.
    split; reflexivity.
Defined.

Lemma replace_absent (value placeholder replacement : string) :
  (forall pre post, value <> (pre ++ placeholder ++ post)%string) ->
  JsString.replace value placeholder replacement = value.
Proof.
  intro Habsent. unfold JsString.replace.
  destruct (JsString.splitAtFirst placeholder value) as [[pre post]|] eqn:E;
    [|reflexivity].
  apply splitAtFirst_sound in E. now apply Habsent in E.
Qed.

(** An attribute value in which no placeholder of the resolutions map
    occurs goes through the substitutions unchanged. *)
Theorem value_without_placeholder
        (resolutions : IKeyValue string) (value : string) :
  (forall placeholder replacement,
      In (placeholder, replacement) resolutions ->
      forall pre post, value <> (pre ++ placeholder ++ post)%string) ->
  Inspection.applyResolutions resolutions value = value.
Proof.
  unfold Inspection.applyResolutions, R.toPairs.
  induction resolutions as [|[placeholder replacement] resolutions IH];
    intro Habsent; cbn [fold_left]; [reflexivity |].
  rewrite replace_absent.
  - apply IH. intros p r Hin. apply (Habsent p r). now right.
  - apply (Habsent placeholder replacement). now left.
Qed.

(** A text longer than the value does not occur in it. *)
Lemma longer_absent (value placeholder pre post : string) :
  String.length value < String.length placeholder ->
  value <> (pre ++ placeholder ++ post)%string.
Proof.
  intros Hlen ->. rewrite !length_append in Hlen. lia.
Qed.

Lemma value_without_placeholder_witness :
  Inspection.applyResolutions
    [("/bower_components", "../../bower_components")] "x.html"
  = "x.html".
Proof.
  apply value_without_placeholder.
  intros placeholder replacement [H|[]] pre post. injection H as <- <-.
  apply longer_absent. cbn. lia.
Defined.

Lemma not_includes (p s : string) :
  (forall a b, s <> (a ++ p ++ b)%string) -> JsString.includes p s = false.
Proof.
  intro H. unfold JsString.includes.
  destruct (JsString.splitAtFirst p s) as [[a b]|] eqn:E; [|reflexivity].
  apply splitAtFirst_sound in E. now apply H in E.
Qed.

(** The replacement at the first occurrence. *)
Lemma replace_at_first (value placeholder replacement pre post : string) :
  value = (pre ++ placeholder ++ post)%string ->
  (forall pre' post' : string,
      value = (pre' ++ placeholder ++ post')%string ->
      String.length pre <= String.length pre') ->
  JsString.replace value placeholder replacement
  = (pre ++ JsString.getSubstitution placeholder pre post replacement
         ++ post)%string.
Proof.
  intros -> Hfirst. unfold JsString.replace.
  destruct (splitAtFirst_first placeholder pre post) as (pre' & post' & E & L).
  rewrite E.
  pose proof (splitAtFirst_sound _ _ _ _ E) as D.
  pose proof (Hfirst pre' post' D) as L'.
  assert (Hlen : String.length pre = String.length pre') by lia.
  destruct (append_eq_length _ _ _ _ D Hlen) as [<- D'].
  apply append_inv_head in D'. now subst post'.
Qed.

(** A replacement that holds no dollar sign is inserted as it is: with
    one entry in the resolutions map, the value after the substitution
    is the text before the first occurrence of the placeholder, the
    replacement, and the text after that occurrence. *)
Theorem plain_replacement_inserted
        (placeholder replacement pre post : string) :
  (forall a b, replacement <> (a ++ "$" ++ b)%string) ->
  (forall pre' post' : string,
      (pre ++ placeholder ++ post = pre' ++ placeholder ++ post')%string ->
      String.length pre <= String.length pre') ->
  Inspection.applyResolutions [(placeholder, replacement)]
                              (pre ++ placeholder ++ post)
  = (pre ++ replacement ++ post)%string.
Proof.
  intros Hplain Hfirst.
  unfold Inspection.applyResolutions, R.toPairs. cbn [fold_left].
  rewrite (replace_at_first _ placeholder replacement pre post eq_refl Hfirst).
  now rewrite getSubstitution_plain by now apply not_includes.
Qed.

Lemma includes_false_absent (p s : string) :
  JsString.includes p s = false ->
  forall a b, s <> (a ++ p ++ b)%string.
Proof.
  unfold JsString.includes. intros H a b ->.
  destruct (splitAtFirst_first p a b) as (a' & b' & E & _).
  now rewrite E in H.
Qed.

Lemma plain_replacement_inserted_witness :
  Inspection.applyResolutions
    [("/bower_components", "../../bower_components")]
    "/bower_components/a/bower_components/b.html"
  = "../../bower_components/a/bower_components/b.html".
Proof.
  apply (plain_replacement_inserted "/bower_components"
           "../../bower_components" "" "/a/bower_components/b.html").
  - apply includes_false_absent. reflexivity.
  - intros pre' post' _. simpl. lia.
Defined.

(* ================================================================== *)
(** * Further properties: the scanner                                  *)
(* ================================================================== *)

Section ImportGraphFacts.

Context {ImportGraph : Type} (newImportGraph : ImportGraph).

(** The construction of the import graph runs the analysis of the entry
    file and nothing else: the calls are those of that analysis, so no
    import found in the entry file is followed; a failure of the
    analysis is the failure of the construction; otherwise the metadata
    of the entry file is written to the console and the graph returned
    is the graph as it was created, in which nothing was registered. *)
Theorem import_graph_of_entry_file
        (w : World) (opts : Inspection.IInspectionOptions) :
  let entry :=
    Path.resolve (cwd w) [Inspection.sourceRoot opts; Inspection.entryPath opts] in
  run (Scanner.generateImportGraph newImportGraph w opts)
  = match run (Inspection.getMetadataForFile w opts entry) with
    | (Returned fileMetadata, calls) =>
        (Returned (newImportGraph, [fileMetadata]), calls)
    | (Raised e, calls) => (Raised e, calls)
    end.
Proof.
  intro entry.
  unfold Scanner.generateImportGraph, Scanner.registerSourceFiles,
    Inspection.inspectSourceFiles. fold entry.
  cbn [Scanner.awaitAndLog]. unfold run, bind at 1 2.
  destruct (Inspection.getMetadataForFile w opts entry [])
    as [[fileMetadata|e] calls]; reflexivity.
Qed.

End ImportGraphFacts.

Section GraphFacts.

Context {G NodeName : Type} `{Graph.DependencyGraphAPI G NodeName}.

(** When no node of the graph declares a dependency, the resolver and
    the linker leave the graph as it is, whatever the implementation of
    the graph: no implied node is asked for and no edge is created. *)
Theorem no_declared_dependency (g : G) :
  (forall node, In node (Graph.listDependencies g) ->
     Scanner.getDependencyPairs (Graph.getDependencyData g node) = []) ->
  Scanner.registerImpliedDependencies g = g
  /\ Scanner.linkDependencies g = g.
Proof.
  intro Hnone. split.
  - unfold Scanner.registerImpliedDependencies, Scanner.getAllDependencyPairs,
      R.unnest.
    assert (Hpairs : forall l, incl l (Graph.listDependencies g) ->
               List.concat
                 (map (fun node =>
                         Scanner.getDependencyPairs
                           (Graph.getDependencyData g node)) l) = []).
    { induction l as [|node l IH]; intro Hl; [reflexivity |].
      cbn [map List.concat].
      rewrite (Hnone node (Hl node (or_introl eq_refl))).
      apply IH. intros x Hx. apply Hl. now right. }
    now rewrite (Hpairs _ (incl_refl _)).
  - unfold Scanner.linkDependencies.
    assert (Hlink : forall l, incl l (Graph.listDependencies g) ->
               fold_left
                 (fun g0 node =>
                    fold_left
                      (fun g' '(name, version) =>
                         Graph.createInterDependency g' node
                           {| Graph.name := JsString name;
                              Graph.version := version |})
                      (Scanner.getDependencyPairs
                         (Graph.getDependencyData g0 node)) g0)
                 l g = g).
    { induction l as [|node l IH]; intro Hl; [reflexivity |].
      cbn [fold_left].
      rewrite (Hnone node (Hl node (or_introl eq_refl))). cbn [fold_left].
      apply IH. intros x Hx. apply Hl. now right. }
    apply Hlink, incl_refl.
Qed.

End GraphFacts.

Lemma no_declared_dependency_witness :
  let g := Scanner.registerManifests Graph.newGraph [manifestB] in
  Scanner.registerImpliedDependencies g = g
  /\ Scanner.linkDependencies g = g.
Proof.
  intro g. apply (no_declared_dependency g).
  intros node [<-|[]]. reflexivity.
Defined.

(** The reader obtained for a project reads the manifest of the
    dependency it is given. *)
Lemma reader_call (w : World) (opts : Filesystem.IProjectOptions)
      (reader : Filesystem.DependencyReader) (dependencyName : string) :
  Filesystem.readDependenciesJson w opts = Returned reader ->
  reader dependencyName
  = call (ReadJsonCall (manifestPath w opts dependencyName))
         (readJson w (manifestPath w opts dependencyName)).
Proof.
  unfold Filesystem.readDependenciesJson, manifestPath.
  destruct (Filesystem.isCase "bower" (Filesystem.packageManager opts)).
  - intro E. injection E as <-. reflexivity.
  - destruct (Filesystem.isCase "npm" (Filesystem.packageManager opts));
      [|discriminate].
    intro E. injection E as <-. reflexivity.
Qed.

(** A listing that returns was asked of a known package manager, for
    which there is a reader. *)
Lemma listing_reader (w : World) (opts : Filesystem.IProjectOptions)
      (names : list string) (listing : list Event) :
  run (async (Filesystem.listInstalledDependencies w opts))
  = (Returned names, listing) ->
  exists reader, Filesystem.readDependenciesJson w opts = Returned reader.
Proof.
  unfold Filesystem.listInstalledDependencies, Filesystem.readDependenciesJson.
  destruct (Filesystem.isCase "bower" (Filesystem.packageManager opts));
    [eauto |].
  destruct (Filesystem.isCase "npm" (Filesystem.packageManager opts));
    [eauto |].
  discriminate.
Qed.

(** Reads awaited together: all of them are issued, in order. *)
Lemma promiseAll_calls_trace {A B : Type} (event : A -> Event)
      (answer : A -> Outcome B) (l : list A) (tr : list Event) :
  snd (promiseAll (map (fun x => call (event x) (answer x)) l) tr)
  = (tr ++ map event l)%list.
Proof.
  revert tr. induction l as [|x l IH]; intro tr; cbn [map promiseAll].
  - cbn. now rewrite app_nil_r.
  - unfold call at 1. specialize (IH (tr ++ [event x])%list).
    destruct (promiseAll _ _) as [os tr2]. cbn [snd] in *. subst tr2.
    now rewrite <- app_assoc.
Qed.

Lemma promiseAll_calls_returned {A B : Type} (event : A -> Event)
      (answer : A -> Outcome B) (value : A -> B) (l : list A)
      (tr : list Event) :
  (forall x, In x l -> answer x = Returned (value x)) ->
  fst (promiseAll (map (fun x => call (event x) (answer x)) l) tr)
  = Returned (map value l).
Proof.
  revert tr. induction l as [|x l IH]; intros tr Hl; cbn [map promiseAll].
  - reflexivity.
  - unfold call at 1. rewrite (Hl x (or_introl eq_refl)).
    specialize (IH (tr ++ [event x])%list (fun y Hy => Hl y (or_intror Hy))).
    destruct (promiseAll _ _) as [os tr2]. cbn [fst] in *. now subst os.
Qed.

Lemma promiseAll_calls_raised {A B : Type} (event : A -> Event)
      (answer : A -> Outcome B) (l : list A) (tr : list Event) :
  (exists x e, In x l /\ answer x = Raised e) ->
  exists x e,
    In x l /\ answer x = Raised e
    /\ fst (promiseAll (map (fun x => call (event x) (answer x)) l) tr)
       = Raised e.
Proof.
  revert tr. induction l as [|x l IH]; intros tr (bad & e0 & Hin & Hbad).
  - destruct Hin.
  - cbn [map promiseAll]. unfold call at 1.
    destruct (answer x) as [v|e] eqn:Ex.
    + destruct Hin as [<-|Hin]; [congruence |].
      destruct (IH (tr ++ [event x])%list) as (y & e & Hy & Hay & Hfst);
        [now exists bad, e0 |].
      exists y, e. split; [now right | split; [exact Hay |]].
      destruct (promiseAll _ _) as [os tr2]. cbn [fst] in *. now subst os.
    + exists x, e. split; [now left | split; [exact Ex |]].
      now destruct (promiseAll _ _) as [os tr2].
Qed.

Section ConstructionFacts.

Context {G NodeName : Type} `{Graph.DependencyGraphAPI G NodeName}.

(** The construction of the dependency graph when every manifest can be
    read: after the listing, the manifest of every name listed is read,
    in the order of the listing; the manifests are registered in that
    order in a new graph, then the resolver runs, then the linker. *)
Theorem construction_of_the_graph
        (w : World) (opts : Filesystem.IProjectOptions)
        (names : list string) (listing : list Event)
        (manifestOf : string -> Filesystem.DependencyJson) :
  run (async (Filesystem.listInstalledDependencies w opts))
  = (Returned names, listing) ->
  (forall dependencyName, In dependencyName names ->
     readJson w (manifestPath w opts dependencyName)
     = Returned (manifestOf dependencyName)) ->
  run (Scanner.generateDependencyGraph (G := G) w opts)
  = (Returned
       (Scanner.linkDependencies
          (Scanner.registerImpliedDependencies
             (Scanner.registerManifests Graph.newGraph (map manifestOf names)))),
     (listing
        ++ map (fun dependencyName =>
                  ReadJsonCall (manifestPath w opts dependencyName)) names)%list).
Proof.
  intros Hlisting Hread.
  destruct (listing_reader _ _ _ _ Hlisting) as [reader Hreader].
  unfold Scanner.generateDependencyGraph, Scanner.registerDeclaredDependencies,
    Scanner.readInstalledDependenciesJson.
  unfold run in *. unfold bind at 1 2 3. rewrite Hlisting.
  unfold bind at 1. rewrite Hreader. unfold lift at 1.
  rewrite (map_ext _ _ (fun n => reader_call w opts reader n Hreader)).
  pose proof (promiseAll_calls_trace
                (fun n => ReadJsonCall (manifestPath w opts n))
                (fun n => readJson w (manifestPath w opts n))
                names listing) as Htrace.
  pose proof (promiseAll_calls_returned
                (fun n => ReadJsonCall (manifestPath w opts n))
                (fun n => readJson w (manifestPath w opts n))
                manifestOf names listing Hread) as Hvalues.
  destruct (promiseAll _ listing) as [os tr]. cbn [fst snd] in *.
  now subst os tr.
Qed.

(** One manifest that cannot be read makes the whole construction fail,
    with the error of a manifest that could not be read; the manifests
    of all the names listed were asked for all the same. *)
Theorem unreadable_manifest
        (w : World) (opts : Filesystem.IProjectOptions)
        (names : list string) (listing : list Event)
        (unreadable : string) (e : JsError) :
  run (async (Filesystem.listInstalledDependencies w opts))
  = (Returned names, listing) ->
  In unreadable names ->
  readJson w (manifestPath w opts unreadable) = Raised e ->
  exists dependencyName e',
    In dependencyName names
    /\ readJson w (manifestPath w opts dependencyName) = Raised e'
    /\ run (Scanner.generateDependencyGraph (G := G) w opts)
       = (Raised e',
          (listing
             ++ map (fun dependencyName =>
                       ReadJsonCall (manifestPath w opts dependencyName))
                    names)%list).
Proof.
  intros Hlisting Hin Hbad.
  destruct (listing_reader _ _ _ _ Hlisting) as [reader Hreader].
  destruct (promiseAll_calls_raised
              (fun n => ReadJsonCall (manifestPath w opts n))
              (fun n => readJson w (manifestPath w opts n))
              names listing) as (n & e' & Hn & Hne & Hfst);
    [now exists unreadable, e |].
  exists n, e'. split; [exact Hn | split; [exact Hne |]].
  unfold Scanner.generateDependencyGraph, Scanner.registerDeclaredDependencies,
    Scanner.readInstalledDependenciesJson.
  unfold run in *. unfold bind at 1 2 3. rewrite Hlisting.
  unfold bind at 1. rewrite Hreader. unfold lift at 1.
  rewrite (map_ext _ _ (fun n => reader_call w opts reader n Hreader)).
  pose proof (promiseAll_calls_trace
                (fun n => ReadJsonCall (manifestPath w opts n))
                (fun n => readJson w (manifestPath w opts n))
                names listing) as Htrace.
  destruct (promiseAll _ listing) as [os tr]. cbn [fst snd] in *.
  now subst os tr.
Qed.

End ConstructionFacts.

Lemma construction_of_the_graph_witness :
  run (Scanner.generateDependencyGraph (G := Graph.DependencyGraph)
         installedWorld bowerOptions)
  = (Returned
       (Scanner.linkDependencies
          (Scanner.registerImpliedDependencies
             (Scanner.registerManifests Graph.newGraph
                (map installedManifest ["A"; "B"; "C"])))),
     ([ReaddirCall "/proj/bower_components";
       StatSyncCall "/proj/bower_components/A";
       StatSyncCall "/proj/bower_components/B";
       StatSyncCall "/proj/bower_components/C"]
        ++ map (fun dependencyName =>
                  ReadJsonCall
                    (manifestPath installedWorld bowerOptions dependencyName))
               ["A"; "B"; "C"])%list).
Proof.
  apply (construction_of_the_graph (G := Graph.DependencyGraph)
           installedWorld bowerOptions ["A"; "B"; "C"]).
  - vm_compute. reflexivity.
  - intros n [<-|[<-|[<-|[]]]]; vm_compute; reflexivity.
Defined.

Lemma unreadable_manifest_witness :
  exists dependencyName e',
    In dependencyName ["A"; "B"]
    /\ readJson incompleteWorld
                (manifestPath incompleteWorld bowerOptions dependencyName)
       = Raised e'
    /\ run (Scanner.generateDependencyGraph (G := Graph.DependencyGraph)
              incompleteWorld bowerOptions)
       = (Raised e',
          ([ReaddirCall "/proj/bower_components";
            StatSyncCall "/proj/bower_components/A";
            StatSyncCall "/proj/bower_components/B"]
             ++ map (fun dependencyName =>
                       ReadJsonCall
                         (manifestPath incompleteWorld bowerOptions
                                       dependencyName))
                    ["A"; "B"])%list).
Proof.
  apply (unreadable_manifest (G := Graph.DependencyGraph)
           incompleteWorld bowerOptions ["A"; "B"] _ "B"
           (SystemError "ENOENT" "/proj/bower_components/B/.bower.json")).
  - vm_compute. reflexivity.
  - simpl. auto.
  - vm_compute. reflexivity.
Defined.

(* ================================================================== *)
(** * Further properties: the resolver on the graph of the spec        *)
(* ================================================================== *)

Section ResolverFacts.

Import Graph.

Lemma addImplied_structure (g : DependencyGraph) (id : IDependencyMetadata) :
  exists added,
    nodes (addNode g {| identity := id; kind := Implied |})
    = (nodes g ++ added)%list
    /\ Forall (fun n => kind n = Implied) added
    /\ edges (addNode g {| identity := id; kind := Implied |}) = edges g.
Proof.
  unfold addNode. cbn [identity]. destruct (hasNode g id).
  - exists []. rewrite app_nil_r. auto.
  - exists [ {| identity := id; kind := Implied |} ]. cbn. auto.
Qed.

Lemma registerImplied_all_structure (pairs : list (string * JsValue))
      (g : DependencyGraph) :
  exists added,
    nodes (fold_left Scanner.registerImplied pairs g) = (nodes g ++ added)%list
    /\ Forall (fun n => kind n = Implied) added
    /\ edges (fold_left Scanner.registerImplied pairs g) = edges g.
Proof.
  revert g. induction pairs as [|[n v] pairs IH]; intro g; cbn [fold_left].
  - exists []. rewrite app_nil_r. auto.
  - destruct (IH (Scanner.registerImplied g (n, v))) as (added2 & -> & F2 & ->).
    unfold Scanner.registerImplied.
    cbn [getDependencyAliases addImpliedDependency SpecGraph].
    destruct (negb _).
    + destruct (addImplied_structure g {| name := JsString n; version := v |})
        as (added1 & -> & F1 & ->).
      exists (added1 ++ added2)%list.
      split; [now rewrite app_assoc |].
      split; [now apply Forall_app | reflexivity].
    + exists added2. auto.
Qed.

End ResolverFacts.

(** On the graph of the specification, the resolver only appends implied
    nodes: the nodes registered before it runs are the first nodes
    after it, in the same order; the nodes after them are implied; the
    edges and the aliases of every name are what they were. *)
Theorem resolver_appends_implied_nodes (g : Graph.DependencyGraph) :
  exists added,
    Graph.nodes (Scanner.registerImpliedDependencies g)
    = (Graph.nodes g ++ added)%list
    /\ Forall (fun n => Graph.kind n = Graph.Implied) added
    /\ Graph.edges (Scanner.registerImpliedDependencies g) = Graph.edges g
    /\ forall dependencyName,
        Graph.getDependencyAliases (Scanner.registerImpliedDependencies g)
                                   dependencyName
        = Graph.getDependencyAliases g dependencyName.
Proof.
  unfold Scanner.registerImpliedDependencies.
  destruct (registerImplied_all_structure
              (Scanner.getAllDependencyPairs g) g) as (added & Hn & Hf & He).
  exists added. repeat split; try assumption.
  intro dependencyName. apply registerImplied_all_aliases.
Qed.



(* ================================================================== *)
(** * Further properties: the paths that are read                      *)
(* ================================================================== *)

Lemma split_segments (s : string) :
  Forall (fun seg => noSeparator seg = true) (JsString.split Path.sep s).
Proof.
  induction s as [|c s IH]; cbn [JsString.split].
  - now constructor.
  - destruct (Ascii.eqb c Path.sep) eqn:Ec; [now constructor |].
    destruct (JsString.split Path.sep s) as [|seg rest].
    + constructor; [cbn; now rewrite Ec | constructor].
    + inversion IH; subst. constructor; [|assumption].
      cbn. rewrite Ec. assumption.
Qed.

Lemma entryName_intro (s : string) :
  s <> "" -> s <> "." -> s <> ".." -> noSeparator s = true ->
  entryName s = true.
Proof.
  intros H1 H2 H3 H4. unfold entryName.
  apply String.eqb_neq in H1, H2, H3. now rewrite H1, H2, H3, H4.
Qed.

(** Below the root the stack of [normalizeString] holds entry names. *)
Lemma normalizeSegment_clean (stack : list string) (seg : string) :
  Forall (fun s => entryName s = true) stack ->
  noSeparator seg = true ->
  Forall (fun s => entryName s = true) (Path.normalizeSegment false stack seg).
Proof.
  intros Hstack Hseg. unfold Path.normalizeSegment.
  destruct (String.eqb_spec seg "") as [|H1]; [assumption |].
  destruct (String.eqb_spec seg ".") as [|H2]; [assumption |].
  destruct (String.eqb_spec seg "..") as [|H3].
  - destruct stack as [|top below]; [constructor |].
    inversion Hstack as [|? ? Htop Hbelow]; subst.
    apply entryName_inv in Htop as (_ & _ & Htop & _).
    now rewrite (proj2 (String.eqb_neq top "..") Htop).
  - constructor; [now apply entryName_intro | assumption].
Qed.

Lemma normalize_clean (segs stack : list string) :
  Forall (fun s => entryName s = true) stack ->
  Forall (fun seg => noSeparator seg = true) segs ->
  Forall (fun s => entryName s = true)
         (fold_left (Path.normalizeSegment false) segs stack).
Proof.
  revert stack. induction segs as [|seg segs IH]; intros stack Hst Hsegs;
    [exact Hst |].
  inversion Hsegs; subst. cbn [fold_left].
  apply IH; [now apply normalizeSegment_clean | assumption].
Qed.

Lemma resolvedSegments_clean (workingDirectory : string) (paths : list string) :
  Forall (fun s => entryName s = true) (resolvedSegments workingDirectory paths).
Proof.
  unfold resolvedSegments. apply Forall_rev.
  apply normalize_clean; [constructor | apply split_segments].
Qed.

(** In an absolute working directory, what [resolve] returns. *)
Lemma resolve_form (workingDirectory : string) (paths : list string) :
  Path.isAbsolute workingDirectory = true ->
  Path.resolve workingDirectory paths
  = ("/" ++ JsString.join "/" (resolvedSegments workingDirectory paths))%string.
Proof.
  intro Habs. unfold Path.resolve, resolvedSegments, Path.normalizeString.
  pose proof (resolveLoop_absolute (rev paths ++ [workingDirectory]) "") as L.
  destruct (Path.resolveLoop (rev paths ++ [workingDirectory]) "")
    as [resolvedPath resolvedAbsolute].
  cbn [fst snd] in *. rewrite L; [reflexivity |].
  exists workingDirectory. split; [|exact Habs].
  apply in_or_app. right. now left.
Qed.

(** The loop of [resolve] does not look at the path resolved so far. *)
Lemma resolveLoop_acc (paths : list string) (resolvedPath : string) :
  Path.resolveLoop paths resolvedPath
  = ((fst (Path.resolveLoop paths "") ++ resolvedPath)%string,
     snd (Path.resolveLoop paths "")).
Proof.
  revert resolvedPath.
  induction paths as [|p paths IH]; intro acc; cbn [Path.resolveLoop].
  - reflexivity.
  - destruct (String.eqb p ""); [apply IH |].
    destruct (Path.isAbsolute p).
    + cbn [fst snd]. now rewrite !append_assoc.
    + rewrite IH. rewrite (IH (p ++ "/" ++ "")%string). cbn [fst snd].
      now rewrite !append_assoc.
Qed.

Lemma normalize_push (allowAboveRoot : bool) (segs stack : list string) :
  Forall (fun s => entryName s = true) segs ->
  fold_left (Path.normalizeSegment allowAboveRoot) segs stack
  = (rev segs ++ stack)%list.
Proof.
  revert stack. induction segs as [|seg segs IH]; intros stack Hsegs;
    [reflexivity |].
  inversion Hsegs; subst. cbn [fold_left rev].
  rewrite normalizeSegment_entry by assumption.
  rewrite IH by assumption. now rewrite <- app_assoc.
Qed.

Lemma split_join (segs : list string) :
  segs <> [] ->
  Forall (fun seg => noSeparator seg = true) segs ->
  JsString.split Path.sep (JsString.join "/" segs) = segs.
Proof.
  induction segs as [|x segs IH]; intros Hne Hsegs; [contradiction |].
  inversion Hsegs as [|? ? Hx Hrest]; subst.
  destruct segs as [|y segs].
  - cbn [JsString.join]. now apply split_noSeparator.
  - change (JsString.join "/" (x :: y :: segs))
      with (x ++ String Path.sep (JsString.join "/" (y :: segs)))%string.
    rewrite split_append_sep, (split_noSeparator _ Hx).
    rewrite IH by (discriminate || assumption). reflexivity.
Qed.

Lemma entryNames_noSeparator (segs : list string) :
  Forall (fun s => entryName s = true) segs ->
  Forall (fun seg => noSeparator seg = true) segs.
Proof.
  apply Forall_impl. intros s H. now apply entryName_inv in H.
Qed.

(** Normalizing a path that [resolve] returned gives its segments
    back. *)
Lemma normalize_resolved (allowAboveRoot : bool) (segs : list string) :
  Forall (fun s => entryName s = true) segs ->
  fold_left (Path.normalizeSegment allowAboveRoot)
            (JsString.split Path.sep ("/" ++ JsString.join "/" segs)) []
  = rev segs.
Proof.
  intro Hsegs.
  change ("/" ++ JsString.join "/" segs)%string
    with ("" ++ String Path.sep (JsString.join "/" segs))%string.
  rewrite split_append_sep. cbn [JsString.split app fold_left].
  change (Path.normalizeSegment allowAboveRoot [] "") with (@nil string).
  destruct segs as [|x segs]; [reflexivity |].
  rewrite split_join;
    [|discriminate | now apply entryNames_noSeparator].
  rewrite normalize_push by assumption. apply app_nil_r.
Qed.

Lemma join_not_empty (segs : list string) :
  segs <> [] ->
  Forall (fun s => entryName s = true) segs ->
  JsString.join "/" segs <> "".
Proof.
  destruct segs as [|x [|y segs]]; intros Hne Hsegs; [contradiction | |];
    inversion Hsegs as [|? ? Hx _]; subst;
    apply entryName_inv in Hx as (Hx & _); cbn [JsString.join].
  - exact Hx.
  - destruct x; [contradiction | discriminate].
Qed.

(** A slash and the segments joined, with one more segment. *)
Lemma join_child (segs : list string) (child : string) :
  Forall (fun s => entryName s = true) segs ->
  ("/" ++ JsString.join "/" (segs ++ [child]))%string
  = if String.eqb ("/" ++ JsString.join "/" segs) "/"
    then ("/" ++ child)%string
    else (("/" ++ JsString.join "/" segs) ++ "/" ++ child)%string.
Proof.
  intro Hsegs. destruct segs as [|x segs]; [reflexivity |].
  rewrite join_snoc by discriminate.
  pose proof (join_not_empty (x :: segs) ltac:(discriminate) Hsegs) as Hne.
  destruct (String.eqb_spec ("/" ++ JsString.join "/" (x :: segs)) "/")
    as [E|_].
  - cbn [append] in E. injection E as E. contradiction.
  - now rewrite append_assoc.
Qed.

(** The segments of paths followed by the name of an entry. *)
Lemma resolvedSegments_child (workingDirectory : string)
      (paths : list string) (child : string) :
  entryName child = true ->
  resolvedSegments workingDirectory (paths ++ [child])
  = (resolvedSegments workingDirectory paths ++ [child])%list.
Proof.
  intro Hentry.
  pose proof (entryName_inv _ Hentry) as (Hne & _ & _ & Hns).
  unfold resolvedSegments. rewrite rev_app_distr. cbn [rev app].
  rewrite (resolveLoop_relative _ _ _ Hne (noSeparator_relative _ Hns)).
  rewrite resolveLoop_acc. cbn [fst].
  destruct (resolveLoop_prepends (rev paths ++ [workingDirectory]) "")
    as (prefix & E & Hprefix).
  rewrite E, append_nil_r.
  change (child ++ "/" ++ "")%string with (child ++ String Path.sep "")%string.
  destruct Hprefix as [->|[front ->]].
  - cbn [append]. rewrite split_append_sep, (split_noSeparator _ Hns).
    cbn [JsString.split app fold_left].
    rewrite (normalizeSegment_entry _ _ _ Hentry). reflexivity.
  - rewrite append_assoc.
    change ("/" ++ child ++ String Path.sep "")%string
      with (String Path.sep (child ++ String Path.sep "")).
    change (front ++ "/")%string with (front ++ String Path.sep "")%string.
    rewrite !split_append_sep, (split_noSeparator _ Hns).
    cbn [JsString.split]. rewrite !fold_left_app. cbn [fold_left].
    rewrite (normalizeSegment_entry _ _ _ Hentry).
    set (stack := fold_left (Path.normalizeSegment false)
                            (JsString.split Path.sep front) []).
    change (Path.normalizeSegment false stack "") with stack.
    change (Path.normalizeSegment false (child :: stack) "")
      with (child :: stack).
    reflexivity.
Qed.

(** Resolving paths followed by the name of an entry: the entry under
    what the paths resolve to. *)
Lemma resolve_child (workingDirectory : string) (paths : list string)
      (child : string) :
  Path.isAbsolute workingDirectory = true ->
  entryName child = true ->
  Path.resolve workingDirectory (paths ++ [child])
  = if String.eqb (Path.resolve workingDirectory paths) "/"
    then ("/" ++ child)%string
    else (Path.resolve workingDirectory paths ++ "/" ++ child)%string.
Proof.
  intros Habs Hentry.
  rewrite !resolve_form by assumption.
  rewrite resolvedSegments_child by assumption.
  apply join_child, resolvedSegments_clean.
Qed.

(** Resolving what [resolve] returned changes nothing. *)
Lemma resolve_resolved (workingDirectory : string) (paths : list string) :
  Path.isAbsolute workingDirectory = true ->
  Path.resolve workingDirectory [Path.resolve workingDirectory paths]
  = Path.resolve workingDirectory paths.
Proof.
  intro Habs.
  rewrite (resolve_form workingDirectory paths Habs).
  set (segs := resolvedSegments workingDirectory paths).
  unfold Path.resolve. cbn [rev app Path.resolveLoop append String.eqb].
  cbn [Path.isAbsolute]. rewrite Ascii.eqb_refl.
  unfold Path.normalizeString.
  change (String "/" (JsString.join "/" segs ++ "/"))%string
    with (("/" ++ JsString.join "/" segs) ++ String Path.sep "")%string.
  rewrite split_append_sep, fold_left_app.
  rewrite normalize_resolved by apply resolvedSegments_clean.
  cbn [JsString.split fold_left].
  change (Path.normalizeSegment (negb true) (rev segs) "") with (rev segs).
  now rewrite rev_involutive.
Qed.

Lemma resolve_child_not_root (workingDirectory : string) (paths : list string)
      (child : string) :
  Path.isAbsolute workingDirectory = true ->
  entryName child = true ->
  Path.resolve workingDirectory (paths ++ [child]) <> "/".
Proof.
  intros Habs Hentry. rewrite resolve_child by assumption.
  pose proof (entryName_inv _ Hentry) as (Hne & _).
  pose proof (resolve_absolute workingDirectory paths Habs) as Hroot.
  destruct (String.eqb (Path.resolve workingDirectory paths) "/").
  - cbn. intro E. injection E as E. contradiction.
  - destruct (Path.resolve workingDirectory paths) as [|c rest];
      [discriminate Hroot |].
    cbn. intro E. injection E as _ E. destruct rest; discriminate E.
Qed.

(** An entry under a path that [resolve] returned and that is not the
    root. *)
Lemma resolve_under (workingDirectory : string) (paths : list string)
      (child : string) :
  Path.isAbsolute workingDirectory = true ->
  entryName child = true ->
  Path.resolve workingDirectory paths <> "/" ->
  Path.resolve workingDirectory [Path.resolve workingDirectory paths; child]
  = (Path.resolve workingDirectory paths ++ "/" ++ child)%string.
Proof.
  intros Habs Hentry Hroot.
  change [Path.resolve workingDirectory paths; child]
    with ([Path.resolve workingDirectory paths] ++ [child])%list.
  rewrite resolve_child, resolve_resolved by assumption.
  apply String.eqb_neq in Hroot. now rewrite Hroot.
Qed.

(** The paths that are examined and read for a dependency, in an
    absolute working directory: the child examined by the listing is
    the entry of that name in the directory of the dependencies, and the
    manifest read is the manifest file of the package manager inside
    that child. *)
Theorem dependency_paths
        (w : World) (opts : Filesystem.IProjectOptions)
        (folder manifestName dependencyName : string) :
  conventionOf opts folder manifestName ->
  Path.isAbsolute (cwd w) = true ->
  entryName dependencyName = true ->
  let directory := Path.resolve (cwd w) [Filesystem.projectPath opts; folder] in
  Path.resolve (cwd w) [directory; dependencyName]
  = (directory ++ "/" ++ dependencyName)%string
  /\ manifestPath w opts dependencyName
     = (directory ++ "/" ++ dependencyName ++ "/" ++ manifestName)%string.
Proof.
  intros Hkind Habs Hentry directory.
  assert (Hfolder : entryName folder = true /\ entryName manifestName = true).
  { destruct Hkind as [(_ & -> & ->)|(_ & -> & ->)]; split; reflexivity. }
  destruct Hfolder as [Hfolder Hmanifest].
  assert (Hdir : directory <> "/").
  { apply (resolve_child_not_root (cwd w) [Filesystem.projectPath opts] folder);
      assumption. }
  assert (Hchild : Path.resolve (cwd w)
                     [Filesystem.projectPath opts; folder; dependencyName]
                   = (directory ++ "/" ++ dependencyName)%string).
  { change [Filesystem.projectPath opts; folder; dependencyName]
      with ([Filesystem.projectPath opts; folder] ++ [dependencyName])%list.
    rewrite resolve_child by assumption. fold directory.
    apply String.eqb_neq in Hdir. now rewrite Hdir. }
  split.
  - now apply resolve_under.
  - assert (Hpath : manifestPath w opts dependencyName
                    = Path.resolve (cwd w)
                        [Path.resolve (cwd w)
                           [Filesystem.projectPath opts; folder; dependencyName];
                         manifestName]).
    { unfold manifestPath, Filesystem.resolve.
      destruct Hkind as [(-> & -> & ->)|(-> & -> & ->)]; reflexivity. }
    rewrite Hpath, resolve_under; try assumption.
    + now rewrite Hchild, append_assoc.
    + apply (resolve_child_not_root (cwd w)
               [Filesystem.projectPath opts; folder] dependencyName);
        assumption.
Qed.

Lemma dependency_paths_witness :
  Path.resolve "/proj" ["/proj/bower_components"; "lodash"]
  = "/proj/bower_components/lodash"
  /\ manifestPath installedWorld bowerOptions "lodash"
     = "/proj/bower_components/lodash/.bower.json".
Proof.
  apply (dependency_paths installedWorld bowerOptions "bower_components"
           ".bower.json" "lodash").
  - left. repeat split.
  - reflexivity.
  - reflexivity.
Defined.

(* ================================================================== *)
(** * Further properties: names and failures                           *)
(* ================================================================== *)

(** The names [filterDotFiles] keeps are those that begin with a letter,
    a digit or an underscore, in their order: the names that begin with
    a dot are dropped, and so is the empty name and any name that begins
    with another character, such as the [@] of a scoped package. *)
Theorem filterDotFiles_keeps (filenames : list string) :
  Filesystem.filterDotFiles filenames
  = filter beginsWithWordCharacter filenames.
Proof.
  unfold Filesystem.filterDotFiles.
  apply filter_ext. intro name. apply test_word_start.
Qed.

Section ListingFailure.

Context {G NodeName : Type} `{Graph.DependencyGraphAPI G NodeName}.

(** When the listing of the installed dependencies fails, the
    construction of the graph fails with the same error, and no call is
    issued after those of the listing: no manifest is read. *)
Theorem listing_failure_aborts
        (w : World) (opts : Filesystem.IProjectOptions)
        (e : JsError) (calls : list Event) :
  run (async (Filesystem.listInstalledDependencies w opts)) = (Raised e, calls) ->
  run (Scanner.generateDependencyGraph (G := G) w opts) = (Raised e, calls).
Proof.
  intro Hlisting.
  unfold Scanner.generateDependencyGraph, Scanner.registerDeclaredDependencies,
    Scanner.readInstalledDependenciesJson.
  unfold run in *. unfold bind at 1 2 3. now rewrite Hlisting.
Qed.

End ListingFailure.

(** The directory of the dependencies is missing. *)
Lemma listing_failure_aborts_witness :
  run (Scanner.generateDependencyGraph (G := Graph.DependencyGraph)
         emptyWorld bowerOptions)
  = (ENOENT "/proj/bower_components", [ReaddirCall "/proj/bower_components"]).
Proof.
  apply (listing_failure_aborts (G := Graph.DependencyGraph)
           emptyWorld bowerOptions).
  reflexivity.
Defined.
